(** * Column construction of the table core: [createColumn]

    A shallow embedding of [createColumn] (the column-model constructor of
    the headless table engine) and of the two memoised accessors it installs
    on every column node, [getFlatColumns] and [getLeafColumns].

    Conventions of the embedding:
    - a JavaScript value that may be [undefined] is an [option];
    - a thrown exception is the [Throw] completion;
    - column objects live in a store and are referred to by reference, since
      [columns] is assigned after construction and the memoised accessors
      read it when they are called;
    - [process.env.NODE_ENV] is an explicit parameter;
    - a property read that goes beyond the own data properties of a value
      (prototype chain, wrapper of a primitive) is answered by the realm the
      accessor runs in. *)

From stdpp Require Import base option list strings gmap.
From Stdlib Require Import ZArith Ascii String.

Open Scope string_scope.
Set Warnings "-register-all".

(** ** JavaScript strings *)

Module JsString.

(** [s.includes(c)] for a one-character needle. *)
Fixpoint includes (c : ascii) (s : string) : bool :=
  match s with
  | EmptyString => false
  | String a s' => if Ascii.eqb a c then true else includes c s'
  end.

(** [s.replace(pat, rep)] with one-character string arguments: a string
    pattern replaces the first occurrence only. *)
Fixpoint replace (pat rep : ascii) (s : string) : string :=
  match s with
  | EmptyString => EmptyString
  | String a s' =>
      if Ascii.eqb a pat then String rep s' else String a (replace pat rep s')
  end.

(** [s.split(sep)] for a one-character separator. *)
Fixpoint split (sep : ascii) (s : string) : list string :=
  match s with
  | EmptyString => [EmptyString]
  | String a s' =>
      if Ascii.eqb a sep then EmptyString :: split sep s'
      else match split sep s' with
           | seg :: rest => String a seg :: rest
           | [] => [String a EmptyString]
           end
  end.

(** Truthiness of a string: only the empty string is falsy. *)
Definition truthy (s : string) : bool :=
  match s with EmptyString => false | String _ _ => true end.

Definition dquote : string := String "034"%char EmptyString.

End JsString.

(** ** Values, completions and the console *)

(** Row data: plain JSON-like values.  An object is the list of its own
    data properties in insertion order.  [Foreign] stands for any value
    that is not plain data (a function, say), known only by a handle. *)
Inductive value : Type :=
  | Undefined
  | Null
  | Bool (b : bool)
  | Number (n : Z)
  | Str (s : string)
  | Object (props : list (string * value))
  | Foreign (handle : nat).

Inductive exn : Type :=
  | Error (message : string)
  | TypeError (message : string).

Inductive completion (A : Type) : Type :=
  | Return (a : A)
  | Throw (e : exn).
Arguments Return {A} a.
Arguments Throw {A} e.

(** The built-in objects a program runs among.  [beyondOwn v key] is what
    reading [key] from [v] gives when [v] shows no own data property of
    that name: the property found on the prototype chain (of the object, or
    of the wrapper of a string, a number or a boolean), any property of a
    foreign value, [undefined] where there is none; such a read may run a
    getter, which may throw. *)
Record realm : Type := Realm {
  beyondOwn : value → string → completion value;
}.

(** A computation that runs in a realm and may write lines to the console
    before it completes. *)
Definition Js (A : Type) : Type :=
  realm → list string → completion A * list string.

Definition ret {A} (a : A) : Js A := λ _ out, (Return a, out).
Definition throw {A} (e : exn) : Js A := λ _ out, (Throw e, out).
Definition bind {A B} (m : Js A) (k : A → Js B) : Js B :=
  λ r out, match m r out with
           | (Return a, out') => k a r out'
           | (Throw e, out') => (Throw e, out')
           end.
Definition console_warn (line : string) : Js unit :=
  λ _ out, (Return tt, (out ++ [line])%list).

Notation "'let*' x ':=' m 'in' k" := (bind m (λ x, k))
  (at level 10, x name, m at level 100, k at level 200).

Definition nullish (v : value) : bool :=
  match v with Undefined | Null => true | _ => false end.

Definition is_undefined (v : value) : bool :=
  match v with Undefined => true | _ => false end.

Fixpoint own_property (props : list (string * value)) (key : string) : value :=
  match props with
  | [] => Undefined
  | (k, v) :: rest => if String.eqb k key then v else own_property rest key
  end.

Fixpoint has_own (props : list (string * value)) (key : string) : bool :=
  match props with
  | [] => false
  | (k, _) :: rest => if String.eqb k key then true else has_own rest key
  end.

(** A read that goes beyond the own data properties of [v]. *)
Definition beyond (v : value) (key : string) : Js value :=
  λ r out, (beyondOwn r v key, out).

(** [v[key]]: reading a property of [undefined] or [null] throws; an own
    data property of an object reads as its value; every other read is
    answered by the realm. *)
Definition index (v : value) (key : string) : Js value :=
  match v with
  | Undefined | Null => throw (TypeError "Cannot read properties of undefined or null")
  | Object props =>
      if has_own props key then ret (own_property props key) else beyond v key
  | _ => beyond v key
  end.

(** [v?.[key]] *)
Definition opt_index (v : value) (key : string) : Js value :=
  if nullish v then ret Undefined else index v key.

(** [a ?? b] on values that are [undefined] or a proper value. *)
Definition nullish_coalesce {A} (a b : option A) : option A :=
  match a with Some x => Some x | None => b end.
Infix "??" := nullish_coalesce (at level 61, left associativity).

(** ** Column definitions *)

Definition AccessorFn : Type := value → Js value.

(** [header] is a string or a render function. *)
Inductive ColumnDefTemplate : Type :=
  | TemplateString (s : string)
  | TemplateFn (render : value → value).

(** An own property of an object literal: absent ([None]), or present and
    holding [undefined] ([Some None]) or a value. *)
Definition prop (A : Type) : Type := option (option A).

(** [o.k] *)
Definition get {A} (p : prop A) : option A :=
  match p with Some v => v | None => None end.

(** One property of [{...base, ...over}]. *)
Definition spread_prop {A} (base over : prop A) : prop A :=
  match over with Some v => Some v | None => base end.

Module ColumnDef.
(** The properties of a column definition that [createColumn] reads, typed
    as the declarations of the column definitions type them. *)
Record t : Type := mk {
  id : prop string;
  accessorKey : prop string;
  accessorFn : prop AccessorFn;
  header : prop ColumnDefTemplate;
}.

Definition empty : t := mk None None None None.

(** [{...defaultColumn, ...columnDef}] *)
Definition spread (defaultColumn columnDef : t) : t :=
  {| id := spread_prop (id defaultColumn) (id columnDef);
     accessorKey := spread_prop (accessorKey defaultColumn) (accessorKey columnDef);
     accessorFn := spread_prop (accessorFn defaultColumn) (accessorFn columnDef);
     header := spread_prop (header defaultColumn) (header columnDef) |}.
End ColumnDef.

(** ** Column nodes, features and the table *)

(** A reference to a column object. *)
Abbreviation ref := nat.

Module Column.
(** The data properties of a column object.  [extra] holds whatever
    further fields the features attach. *)
Record t : Type := mk {
  id : string;
  accessorFn : option AccessorFn;
  parent : option ref;
  depth : Z;
  columnDef : ColumnDef.t;
  columns : list ref;
  extra : gmap string value;
}.

Definition set_extra (key : string) (v : value) (c : t) : t :=
  {| id := id c; accessorFn := accessorFn c; parent := parent c;
     depth := depth c; columnDef := columnDef c; columns := columns c;
     extra := <[key := v]> (extra c) |}.

Definition set_columns (cols : list ref) (c : t) : t :=
  {| id := id c; accessorFn := accessorFn c; parent := parent c;
     depth := depth c; columnDef := columnDef c; columns := cols;
     extra := extra c |}.
End Column.

(** A function object that orders leaf columns: compared by identity
    ([!==]), applied through [apply] to the columns as references. *)
Module OrderColumnsFn.
Record t : Type := mk {
  identity : nat;
  apply : list ref → list ref;
}.
End OrderColumnsFn.

(** What [createColumn] and the feature hooks consult of the table. *)
Module TableCore.
Record t : Type := mk {
  _getDefaultColumnDef : ColumnDef.t;
  _getOrderColumnsFn : OrderColumnsFn.t;
}.
End TableCore.

Module TableFeature.
(** [createColumn?: (column, table) => void]; the hook mutates the column
    it is given, modelled as the column it leaves behind.  A hook is taken
    to return normally and to touch the data properties of that column
    only. *)
Record t : Type := mk {
  createColumn : option (Column.t → TableCore.t → Column.t);
}.
End TableFeature.

Module Table.
(** [_features] lists the registry's own properties in the order
    [Object.values] enumerates them: for feature names, the order in which
    they were registered. *)
Record t : Type := mk {
  core : TableCore.t;
  _features : list (string * TableFeature.t);
}.

Definition _getDefaultColumnDef (table : t) : ColumnDef.t :=
  TableCore._getDefaultColumnDef (core table).
Definition _getOrderColumnsFn (table : t) : OrderColumnsFn.t :=
  TableCore._getOrderColumnsFn (core table).
End Table.

Definition Object_values {A} (o : list (string * A)) : list A := o.*2.

(** ** createColumn *)

(** [process.env.NODE_ENV !== 'production'] *)
Definition not_production (NODE_ENV : option string) : bool :=
  match NODE_ENV with
  | Some s => negb (String.eqb s "production")
  | None => true
  end.

(** The accessor built for an [accessorKey] that contains a dot. *)
Definition deepAccessor (NODE_ENV : option string) (accessorKey : string)
    : AccessorFn :=
  λ originalRow,
    let body (acc : Js value) (key : string) : Js value :=
      let* result := acc in
      let* result := opt_index result key in
      let* _ := (if not_production NODE_ENV && is_undefined result
                 then console_warn
                        (JsString.dquote ++ key ++ JsString.dquote
                         ++ " in deeply nested key "
                         ++ JsString.dquote ++ accessorKey ++ JsString.dquote
                         ++ " returned undefined.")
                 else ret tt) in
      ret result in
    fold_left body (JsString.split "." accessorKey) (ret originalRow).

(** The accessor built for an [accessorKey] without a dot. *)
Definition shallowAccessor (accessorKey : string) : AccessorFn :=
  λ originalRow, index originalRow accessorKey.

(** The [id] of lines 90-95, before the check of line 124. *)
Definition resolveId (resolvedColumnDef : ColumnDef.t) : option string :=
  let accessorKey := get (ColumnDef.accessorKey resolvedColumnDef) in
  get (ColumnDef.id resolvedColumnDef)
  ?? (match accessorKey with
      | Some k => if JsString.truthy k then Some (JsString.replace "." "_" k) else None
      | None => None
      end)
  ?? (match get (ColumnDef.header resolvedColumnDef) with
      | Some (TemplateString s) => Some s
      | _ => None
      end).

(** The [accessorFn] of lines 97-122. *)
Definition resolveAccessorFn (NODE_ENV : option string)
    (resolvedColumnDef : ColumnDef.t) : option AccessorFn :=
  let accessorKey := get (ColumnDef.accessorKey resolvedColumnDef) in
  match get (ColumnDef.accessorFn resolvedColumnDef) with
  | Some f => Some f
  | None =>
      match accessorKey with
      | Some k =>
          if JsString.truthy k then
            if JsString.includes "." k
            then Some (deepAccessor NODE_ENV k)
            else Some (shallowAccessor k)
          else None
      | None => None
      end
  end.

(** [String(id)] of a string or [undefined]. *)
Definition String_ (id : option string) : string :=
  match id with Some s => s | None => "undefined" end.

(** Truthiness of a string or [undefined]. *)
Definition truthy (id : option string) : bool :=
  match id with Some s => JsString.truthy s | None => false end.

(** The object literal of lines 135-167, before the features see it. *)
Definition newColumn (NODE_ENV : option string) (resolvedColumnDef : ColumnDef.t)
    (id : option string) (depth : Z) (parent : option ref) : Column.t :=
  {| Column.id := String_ id;
     Column.accessorFn := resolveAccessorFn NODE_ENV resolvedColumnDef;
     Column.parent := parent;
     Column.depth := depth;
     Column.columnDef := resolvedColumnDef;
     Column.columns := [];
     Column.extra := ∅ |}.

(** Lines 169-171: every feature's optional hook, in enumeration order. *)
Definition runFeatures (table : Table.t) (column : Column.t) : Column.t :=
  fold_left
    (λ column feature,
       match TableFeature.createColumn feature with
       | Some hook => hook column (Table.core table)
       | None => column
       end)
    (Object_values (Table._features table)) column.

(** Lines 81-86: the definition merged over the table's default. *)
Definition resolvedColumnDef (table : Table.t) (columnDef : ColumnDef.t)
    : ColumnDef.t :=
  let defaultColumn := Table._getDefaultColumnDef table in
  ColumnDef.spread defaultColumn columnDef.

Definition createColumn (NODE_ENV : option string) (table : Table.t)
    (columnDef : ColumnDef.t) (depth : Z) (parent : option ref)
    : completion Column.t :=
  let resolvedColumnDef := resolvedColumnDef table columnDef in
  let id := resolveId resolvedColumnDef in
  if negb (truthy id) then
    if not_production NODE_ENV then
      Throw (Error
               (match get (ColumnDef.accessorFn resolvedColumnDef) with
                | Some _ => "Columns require an id when using an accessorFn"
                | None => "Columns require an id when using a non-string header"
                end))
    else Throw (Error EmptyString)
  else
    let column := newColumn NODE_ENV resolvedColumnDef id depth parent in
    Return (runFeatures table column).

(** ** The store of column objects and the memoised accessors *)

(** What one [memo] closure remembers between calls: the dependencies and
    the result of its last computation, or nothing before the first call. *)
Definition MemoCell (D R : Type) : Type := option (list D * R).

Module Node.
(** A column object: its data properties and the private state of its two
    memoised accessors. *)
Record t : Type := mk {
  column : Column.t;
  flatColumns : MemoCell bool (list ref);
  leafColumns : MemoCell OrderColumnsFn.t (list ref);
}.

Definition set_column (c : Column.t) (n : t) : t :=
  {| column := c; flatColumns := flatColumns n; leafColumns := leafColumns n |}.
Definition set_flatColumns (m : MemoCell bool (list ref)) (n : t) : t :=
  {| column := column n; flatColumns := m; leafColumns := leafColumns n |}.
Definition set_leafColumns (m : MemoCell OrderColumnsFn.t (list ref)) (n : t) : t :=
  {| column := column n; flatColumns := flatColumns n; leafColumns := m |}.
End Node.

Abbreviation store := (list Node.t).

(** The object [createColumn] returns, placed in the store with both memo
    closures still empty. *)
Definition alloc (c : Column.t) (h : store) : ref * store :=
  (List.length h, (h ++ [Node.mk c None None])%list).

Definition createColumnIn (NODE_ENV : option string) (table : Table.t)
    (columnDef : ColumnDef.t) (depth : Z) (parent : option ref) (h : store)
    : completion (ref * store) :=
  match createColumn NODE_ENV table columnDef depth parent with
  | Return c => Return (alloc c h)
  | Throw e => Throw e
  end.

(** [column.columns = cols], the assignment the table makes when it
    assembles the tree. *)
Definition assignColumns (column : ref) (cols : list ref) (h : store) : store :=
  alter (λ n, Node.set_column (Column.set_columns cols (Node.column n)) n) column h.

(** Dependencies are unchanged when both arrays have the same length and
    hold the same elements, position by position. *)
Fixpoint depsUnchanged {D} (same : D → D → bool) (deps newDeps : list D) : bool :=
  match deps, newDeps with
  | [], [] => true
  | d :: deps, n :: newDeps => same d n && depsUnchanged same deps newDeps
  | _, _ => false
  end.

(** Modelled from the spec: [memo] is imported from [../utils], which is not
    among the sources.  Section 4.3 gives its contract: a call with an
    unchanged dependency key returns the cached result without
    recomputation; otherwise the result is computed from the new
    dependencies and cached with them.  The debug options only log. *)
Definition memo {D R} (same : D → D → bool) (newDeps : list D)
    (fn : list D → store → option (R * store))
    (cell : MemoCell D R) (save : MemoCell D R → store → store)
    (h : store) : option (R * store) :=
  let recompute :=
    '(result, h') ← fn newDeps h;
    Some (result, save (Some (newDeps, result)) h') in
  match cell with
  | Some (deps, result) =>
      if depsUnchanged same deps newDeps then Some (result, h) else recompute
  | None => recompute
  end.

(** [xs.flatMap(f)] for an [f] that goes through the store. *)
Fixpoint flatMap {A B} (f : A → store → option (list B * store))
    (xs : list A) (h : store) : option (list B * store) :=
  match xs with
  | [] => Some ([], h)
  | x :: xs =>
      '(ys, h) ← f x h;
      '(zs, h) ← flatMap f xs h;
      Some ((ys ++ zs)%list, h)
  end.

Definition sameFn (f g : OrderColumnsFn.t) : bool :=
  Nat.eqb (OrderColumnsFn.identity f) (OrderColumnsFn.identity g).

(** [column.getFlatColumns()].  [None] stands for a call that does not
    return within [fuel] nested calls, or that follows a dangling
    reference. *)
Fixpoint getFlatColumns (fuel : nat) (column : ref) (h : store)
    : option (list ref * store) :=
  match fuel with
  | 0 => None
  | S fuel =>
      node ← h !! column;
      memo Bool.eqb [true]
        (λ _ h,
           node ← h !! column;
           '(flat, h) ← flatMap (getFlatColumns fuel)
                          (Column.columns (Node.column node)) h;
           Some (column :: flat, h))
        (Node.flatColumns node)
        (λ cell, alter (Node.set_flatColumns cell) column)
        h
  end.

(** [column.getLeafColumns()], for the table as it is at the call.  The
    dependencies are passed on to the computation as its arguments, of
    which [orderColumns] is the first. *)
Fixpoint getLeafColumns (fuel : nat) (table : Table.t) (column : ref) (h : store)
    : option (list ref * store) :=
  match fuel with
  | 0 => None
  | S fuel =>
      node ← h !! column;
      memo sameFn [Table._getOrderColumnsFn table]
        (λ deps h,
           match deps with
           | orderColumns :: _ =>
               node ← h !! column;
               let columns := Column.columns (Node.column node) in
               if negb (Nat.eqb (List.length columns) 0) then
                 '(leafColumns, h) ← flatMap (getLeafColumns fuel table) columns h;
                 Some (OrderColumnsFn.apply orderColumns leafColumns, h)
               else Some ([column], h)
           | [] => None
           end)
        (Node.leafColumns node)
        (λ cell, alter (Node.set_leafColumns cell) column)
        h
  end.

(** ** Notions used to state the properties *)

(** Every hook of the table leaves the [field] of the column as it was:
    the convention that features extend the node and do not replace what
    [createColumn] set. *)
Definition hooksKeep {A} (field : Column.t → A) (features : list (string * TableFeature.t)) : Prop :=
  Forall
    (λ feature, ∀ hook, TableFeature.createColumn feature = Some hook →
                ∀ column core, field (hook column core) = field column)
    (Object_values features).

(** The hook of [feature] writes [v] to the extra field [key]. *)
Definition setsField (feature : TableFeature.t) (key : string) (v : value) : Prop :=
  ∃ hook, TableFeature.createColumn feature = Some hook ∧
          ∀ column core, Column.extra (hook column core) !! key = Some v.

(** One feature applied to the column; a feature without hook does nothing. *)
Definition applyFeature (core : TableCore.t) (column : Column.t)
    (feature : TableFeature.t) : Column.t :=
  match TableFeature.createColumn feature with
  | Some hook => hook column core
  | None => column
  end.

(** The value a nullish-safe walk along [path] reaches from [v] through
    own data properties. *)
Fixpoint walk (path : list string) (v : value) : value :=
  match path with
  | [] => v
  | key :: path =>
      walk path (match v with
                 | Object props => own_property props key
                 | _ => Undefined
                 end)
  end.

(** Every segment of [path] names an own data property of the object the
    walk has reached, unless the walk has reached [null] or [undefined]. *)
Fixpoint ownPath (path : list string) (v : value) : bool :=
  match path with
  | [] => true
  | key :: path =>
      match v with
      | Undefined | Null => true
      | Object props => has_own props key && ownPath path (own_property props key)
      | _ => false
      end
  end.

(** No read beyond own data properties throws in the realm. *)
Definition quiet (r : realm) : Prop :=
  ∀ v key, ∃ x, beyondOwn r v key = Return x.

(** One turn of the loop of the deep accessor, on the computation of the
    turns before it. *)
Definition deepStep (NODE_ENV : option string) (accessorKey : string)
    (acc : Js value) (key : string) : Js value :=
  let* result := acc in
  let* result := opt_index result key in
  let* _ := (if not_production NODE_ENV && is_undefined result
             then console_warn
                    (JsString.dquote ++ key ++ JsString.dquote
                     ++ " in deeply nested key "
                     ++ JsString.dquote ++ accessorKey ++ JsString.dquote
                     ++ " returned undefined.")
             else ret tt) in
  ret result.

(** A realm with nothing beyond own properties. *)
Definition bareRealm : realm := Realm (λ _ _, Return Undefined).

(** A realm in which strings have their [length] and reading
    [constructor] runs into a foreign value. *)
Definition stringRealm : realm :=
  Realm (λ v key,
           match v with
           | Str s =>
               if String.eqb key "length"
               then Return (Number (Z.of_nat (String.length s)))
               else Return Undefined
           | Object _ =>
               if String.eqb key "constructor" then Return (Foreign 0)
               else Return Undefined
           | _ => Return Undefined
           end).

(** The column tree below a node: the node's reference and the trees of
    its children, in order. *)
Inductive tree : Type :=
  | Tree (r : ref) (ts : list tree).

Definition root (t : tree) : ref := match t with Tree r _ => r end.
Definition children (t : tree) : list tree := match t with Tree _ ts => ts end.

Fixpoint height (t : tree) : nat :=
  match t with
  | Tree _ ts => S (foldr (λ t n, height t `max` n) 0 ts)
  end.

(** The node, then the subtree of each child in turn. *)
Fixpoint preorder (t : tree) : list ref :=
  match t with
  | Tree r ts => r :: flat_map preorder ts
  end.

(** The node itself when it has no children; otherwise the leaves of the
    children, concatenated and then put in order. *)
Fixpoint leafOrder (order : list ref → list ref) (t : tree) : list ref :=
  match t with
  | Tree r [] => [r]
  | Tree r ts => order (flat_map (leafOrder order) ts)
  end.

(** The store holds the tree [t]: every node of [t] is a column object
    whose [columns] are the roots of its subtrees. *)
Inductive shaped (h : store) : tree → Prop :=
  | shaped_Tree r node ts :
      h !! r = Some node →
      Column.columns (Node.column node) = root <$> ts →
      Forall (shaped h) ts →
      shaped h (Tree r ts).

(** The two stores hold the same column objects with the same data
    properties; they may differ in what the accessors have cached. *)
Definition sameColumns (h h' : store) : Prop :=
  Node.column <$> h' = Node.column <$> h.

(** What a call of [getFlatColumns] may change in the store: nothing but
    [getFlatColumns] caches. *)
Definition flatStep (h h' : store) : Prop :=
  sameColumns h h' ∧ Node.leafColumns <$> h' = Node.leafColumns <$> h.

(** What a call of [getLeafColumns] may change in the store: nothing but
    [getLeafColumns] caches. *)
Definition leafStep (h h' : store) : Prop :=
  sameColumns h h' ∧ Node.flatColumns <$> h' = Node.flatColumns <$> h.

(** Every cached [getFlatColumns] result starts with the node that owns
    the cache. *)
Definition flatHeads (h : store) : Prop :=
  ∀ (column : ref) node deps result,
    h !! column = Some node →
    Node.flatColumns node = Some (deps, result) →
    head result = Some column.

(** No [getFlatColumns] cache is stale: a cached result that a call would
    return is the one the node's present subtree gives.  True of a store
    whose caches are empty, and kept by every call of the accessors. *)
Definition flatFresh (h : store) : Prop :=
  ∀ t node deps result,
    shaped h t →
    h !! root t = Some node →
    Node.flatColumns node = Some (deps, result) →
    depsUnchanged Bool.eqb deps [true] = true →
    result = preorder t.

(** No [getLeafColumns] cache is stale for the table's present ordering
    function. *)
Definition leafFresh (table : Table.t) (h : store) : Prop :=
  ∀ t node deps result,
    shaped h t →
    h !! root t = Some node →
    Node.leafColumns node = Some (deps, result) →
    depsUnchanged sameFn deps [Table._getOrderColumnsFn table] = true →
    result = leafOrder (OrderColumnsFn.apply
                          (Table._getOrderColumnsFn table)) t.

(** A feature whose hook sets one extra field. *)
Definition fieldSetter (key : string) (v : value) : TableFeature.t :=
  TableFeature.mk (Some (λ column _, Column.set_extra key v column)).

Definition identityOrder : OrderColumnsFn.t := OrderColumnsFn.mk 0 (λ columns, columns).
Definition reverseOrder : OrderColumnsFn.t := OrderColumnsFn.mk 1 (λ columns, rev columns).

Definition plainTable : Table.t :=
  Table.mk (TableCore.mk ColumnDef.empty identityOrder) [].

Definition keyed (accessorKey : string) : ColumnDef.t :=
  ColumnDef.mk None (Some (Some accessorKey)) None None.

(** [{ accessorFn: row => row, accessorKey: 'a.b' }] *)
Definition fnAndKey : ColumnDef.t :=
  ColumnDef.mk None (Some (Some "a.b")) (Some (Some (λ row, ret row))) None.

(** [{ accessorFn: row => row }] *)
Definition fnOnly : ColumnDef.t :=
  ColumnDef.mk None None (Some (Some (λ row, ret row))) None.

(** A table with two features that both set the extra field [sortable]. *)
Definition twoSetters : Table.t :=
  Table.mk (TableCore.mk ColumnDef.empty identityOrder)
    [("First", fieldSetter "sortable" (Bool false));
     ("Second", fieldSetter "sortable" (Bool true))].

(** A table that lists leaf columns last to first. *)
Definition reversingTable : Table.t :=
  Table.mk (TableCore.mk ColumnDef.empty reverseOrder) [].

(** A parent with two leaf children, as the table assembles it: three
    columns are created, then the children are assigned to the parent. *)
Definition family : store :=
  match createColumnIn None reversingTable (keyed "parent") 0 None [] with
  | Return (parent, h) =>
      match createColumnIn None reversingTable (keyed "child1") 1 (Some parent) h with
      | Return (child1, h) =>
          match createColumnIn None reversingTable (keyed "child2") 1 (Some parent) h with
          | Return (child2, h) => assignColumns parent [child1; child2] h
          | Throw _ => h
          end
      | Throw _ => h
      end
  | Throw _ => []
  end.

Definition familyTree : tree := Tree 0 [Tree 1 []; Tree 2 []].

(** [{ id: '', accessorKey: 'a.b', header: 'Name' }] *)
Definition emptyId : ColumnDef.t :=
  ColumnDef.mk (Some (Some EmptyString)) (Some (Some "a.b")) None
    (Some (Some (TemplateString "Name"))).

(** [{ id: 'name', accessorKey: 'a.b', header: 'Name' }] *)
Definition fullDef : ColumnDef.t :=
  ColumnDef.mk (Some (Some "name")) (Some (Some "a.b")) None
    (Some (Some (TemplateString "Name"))).

(** ** Further notions: accessors, registry, assembled trees *)

(** The line the deep accessor writes for a segment that reads as
    [undefined]. *)
Definition deepWarning (key accessorKey : string) : string :=
  JsString.dquote ++ key ++ JsString.dquote
  ++ " in deeply nested key "
  ++ JsString.dquote ++ accessorKey ++ JsString.dquote
  ++ " returned undefined.".

(** What one nullish-safe step reads. *)
Definition stepInto (v : value) (key : string) : value :=
  match v with
  | Object props => own_property props key
  | _ => Undefined
  end.

(** The lines a walk along [path] from [v] writes when warnings are on:
    one for every segment that reads as [undefined]. *)
Fixpoint walkWarnings (accessorKey : string) (path : list string) (v : value)
    : list string :=
  match path with
  | [] => []
  | key :: path =>
      (if is_undefined (stepInto v key) then [deepWarning key accessorKey] else [])
      ++ walkWarnings accessorKey path (stepInto v key)
  end%list.

(** The lines [ws] written so far fit the completion [c] reached so far:
    none in production; otherwise none if the value is not [undefined],
    and, once a segment has been read ([started]), some if it is. *)
Definition warnedWell (dev started : bool) (c : completion value) (ws : list string)
    : Prop :=
  (dev = false → ws = []) ∧
  (dev = true →
   ∀ v, c = Return v →
        (v ≠ Undefined → ws = []) ∧
        (started = true → ws = [] → v ≠ Undefined)).

Definition hasHook (entry : string * TableFeature.t) : bool :=
  match TableFeature.createColumn entry.2 with Some _ => true | None => false end.

(** The table with another feature registry. *)
Definition withFeatures (table : Table.t) (features : list (string * TableFeature.t))
    : Table.t :=
  Table.mk (Table.core table) features.

(** The column has no children in the store. *)
Definition childless (h : store) (column : ref) : bool :=
  match h !! column with
  | Some node =>
      match Column.columns (Node.column node) with [] => true | _ :: _ => false end
  | None => false
  end.

(** No accessor has been called yet: every cache is empty. *)
Definition uncached (h : store) : Prop :=
  Forall (λ node, Node.flatColumns node = None ∧ Node.leafColumns node = None) h.

(** What a call of [getLeafColumns] for [table] may change: nothing but
    [getLeafColumns] caches, and each cache it wrote is keyed by the
    table's ordering function. *)
Definition leafStepFor (table : Table.t) (h h' : store) : Prop :=
  leafStep h h' ∧
  ∀ column node',
    h' !! column = Some node' →
    ∃ node, h !! column = Some node ∧
            (Node.leafColumns node' = Node.leafColumns node ∨
             ∃ result, Node.leafColumns node'
                       = Some ([Table._getOrderColumnsFn table], result)).

(** [{ accessorKey: '', header: 'Name' }] *)
Definition emptyKey : ColumnDef.t :=
  ColumnDef.mk None (Some (Some EmptyString)) None
    (Some (Some (TemplateString "Name"))).

(** The table of [twoSetters] with a feature without hook in between. *)
Definition withIdleFeature : Table.t :=
  Table.mk (TableCore.mk ColumnDef.empty identityOrder)
    [("First", fieldSetter "sortable" (Bool false));
     ("Idle", TableFeature.mk None);
     ("Second", fieldSetter "sortable" (Bool true))].

(** A table that lists leaf columns as they come. *)
Definition identityTable : Table.t :=
  Table.mk (TableCore.mk ColumnDef.empty identityOrder) [].

(** Three columns just created, none assigned to another yet. *)
Definition nursery : store :=
  match createColumnIn None reversingTable (keyed "parent") 0 None [] with
  | Return (parent, h) =>
      match createColumnIn None reversingTable (keyed "child1") 1 (Some parent) h with
      | Return (child1, h) =>
          match createColumnIn None reversingTable (keyed "child2") 1 (Some parent) h with
          | Return (child2, h) => h
          | Throw _ => h
          end
      | Throw _ => h
      end
  | Throw _ => []
  end.

(** ** The Svelte adapter: [flexRender]

    What [flexRender] and its helpers observe of the value they are asked
    to render: its truthiness, its [typeof], the properties [$$render],
    [render], [prototype] and [name], whether a value is an instance of
    [SvelteComponent], and what calling it returns. *)

Module Svelte.

(** What a function is called with here: the props of [flexRender], or the
    string handed to [startsWith] and [endsWith]. *)
Inductive arg (Props : Type) : Type :=
  | WithProps (props : Props)
  | WithString (s : string).
Arguments WithProps {Props} props.
Arguments WithString {Props} s.

(** A value.  An object carries whether [SvelteComponent.prototype] is on
    its prototype chain, and the properties that can be read from it. *)
Inductive jsv (Props : Type) : Type :=
  | JUndefined
  | JNull
  | JBool (b : bool)
  | JNumber (n : Z)
  | JString (s : string)
  | JObject (svelteInstance : bool) (fields : list (string * jsv Props))
  | JFunction (fields : list (string * jsv Props))
      (call : arg Props → completion (jsv Props)).
Arguments JUndefined {Props}.
Arguments JNull {Props}.
Arguments JBool {Props} b.
Arguments JNumber {Props} n.
Arguments JString {Props} s.
Arguments JObject {Props} svelteInstance fields.
Arguments JFunction {Props} fields call.

Inductive jstype : Type :=
  | TUndefined | TObject | TBoolean | TNumber | TString | TFunction.

Definition typeof {Props} (v : jsv Props) : jstype :=
  match v with
  | JUndefined => TUndefined
  | JNull => TObject
  | JBool _ => TBoolean
  | JNumber _ => TNumber
  | JString _ => TString
  | JObject _ _ => TObject
  | JFunction _ _ => TFunction
  end.

Definition isFunction {Props} (v : jsv Props) : bool :=
  match typeof v with TFunction => true | _ => false end.

Definition isObject {Props} (v : jsv Props) : bool :=
  match typeof v with TObject => true | _ => false end.

Definition truthy {Props} (v : jsv Props) : bool :=
  match v with
  | JUndefined | JNull => false
  | JBool b => b
  | JNumber n => negb (Z.eqb n 0)
  | JString s => JsString.truthy s
  | JObject _ _ | JFunction _ _ => true
  end.

Definition nullish {Props} (v : jsv Props) : bool :=
  match v with JUndefined | JNull => true | _ => false end.

Fixpoint field {Props} (fields : list (string * jsv Props)) (key : string)
    : jsv Props :=
  match fields with
  | [] => JUndefined
  | (k, v) :: rest => if String.eqb k key then v else field rest key
  end.

(** [v.key] for the four keys read here, none of which a boolean, a number
    or a string has. *)
Definition read {Props} (v : jsv Props) (key : string) : completion (jsv Props) :=
  match v with
  | JUndefined | JNull =>
      Throw (TypeError "Cannot read properties of undefined or null")
  | JObject _ fields | JFunction fields _ => Return (field fields key)
  | JBool _ | JNumber _ | JString _ => Return JUndefined
  end.

(** [v instanceof SvelteComponent] *)
Definition instanceOfSvelteComponent {Props} (v : jsv Props) : bool :=
  match v with JObject svelteInstance _ => svelteInstance | _ => false end.

Definition andThen {A B} (m : completion A) (k : A → completion B) : completion B :=
  match m with Return a => k a | Throw e => Throw e end.

(** [s.endsWith(suffix)] *)
Definition endsWith (suffix s : string) : bool :=
  Nat.leb (String.length suffix) (String.length s)
  && String.eqb (substring (String.length s - String.length suffix)
                   (String.length suffix) s) suffix.

(** [name.method(s)] for [method] one of [startsWith] and [endsWith]: the
    method of strings on a string, the property of that name on an object
    or a function, and nothing to call on a boolean or a number. *)
Definition callStringMethod {Props} (name : jsv Props) (method : string)
    (test : string → string → bool) (s : string) : completion (jsv Props) :=
  match name with
  | JString n => Return (JBool (test s n))
  | JObject _ fields | JFunction fields _ =>
      match field fields method with
      | JFunction _ call => call (WithString s)
      | _ => Throw (TypeError "not a function")
      end
  | _ => Throw (TypeError "not a function")
  end.

(** [component.name?.method(s)] *)
Definition nameTest {Props} (component : jsv Props) (method : string)
    (test : string → string → bool) (s : string) : completion (jsv Props) :=
  andThen (read component "name") (λ name,
    if nullish name then Return JUndefined
    else callStringMethod name method test s).

(** What the helpers consult of the environment: whether [document] is
    undefined, and whether [window] has [__SVELTE_HMR]. *)
Record env : Type := mkEnv {
  documentUndefined : bool;
  svelteHMR : bool;
}.

Definition isSvelteServerComponent {Props} (component : jsv Props)
    : completion (jsv Props) :=
  if isObject component then
    andThen (read component "$$render") (λ render0,
      if isFunction render0 then
        andThen (read component "render") (λ render1,
          Return (JBool (isFunction render1)))
      else Return (JBool false))
  else Return (JBool false).

Definition isSvelteClientComponent {Props} (e : env) (component : jsv Props)
    : completion (jsv Props) :=
  let isHMR := svelteHMR e in
  andThen (read component "prototype") (λ prototype,
    if instanceOfSvelteComponent prototype then Return (JBool true)
    else if isHMR then
      andThen (nameTest component "startsWith" String.prefix "Proxy<") (λ starts,
        if truthy starts then nameTest component "endsWith" endsWith ">"
        else Return starts)
    else Return (JBool false)).

Definition isSvelteComponent {Props} (e : env) (component : jsv Props)
    : completion (jsv Props) :=
  if documentUndefined e then isSvelteServerComponent component
  else isSvelteClientComponent e component.

(** [renderComponent] and [Placeholder] are imported from files that are
    not among the sources: what [renderComponent] returns is kept as the
    component and the props it was given. *)
Inductive rendered (Props : Type) : Type :=
  | RenderComponent (component : jsv Props) (props : Props)
  | RenderPlaceholder (content : jsv Props).
Arguments RenderComponent {Props} component props.
Arguments RenderPlaceholder {Props} content.

(** [renderComponent(Placeholder, { content })] *)
Definition wrapInPlaceholder {Props} (content : jsv Props) : rendered Props :=
  RenderPlaceholder content.

(** [component(props)] *)
Definition callWith {Props} (component : jsv Props) (props : Props)
    : completion (jsv Props) :=
  match component with
  | JFunction _ call => call (WithProps props)
  | _ => Throw (TypeError "not a function")
  end.

(** [flexRender]; [None] is [null]. *)
Definition flexRender {Props} (e : env) (component : jsv Props) (props : Props)
    : completion (option (rendered Props)) :=
  if negb (truthy component) then Return None
  else
    andThen (isSvelteComponent e component) (λ isComponent,
      if truthy isComponent then Return (Some (RenderComponent component props))
      else if isFunction component then
        andThen (callWith component props) (λ result,
          if nullish result then Return None
          else
            andThen (isSvelteComponent e result) (λ isComponent,
              if truthy isComponent
              then Return (Some (RenderComponent result props))
              else Return (Some (wrapInPlaceholder result))))
      else Return (Some (wrapInPlaceholder component))).

End Svelte.

(** ** Strings *)

Lemma replace_first_dot (pat rep : ascii) (s : string) :
  JsString.includes pat s = true →
  ∃ pre post, s = pre ++ String pat post ∧ JsString.includes pat pre = false ∧
              JsString.replace pat rep s = pre ++ String rep post.
Proof.
  induction s as [|a s IH]; simpl; [done|].
  destruct (Ascii.eqb a pat) eqn:E.
  - intros _. apply Ascii.eqb_eq in E as ->.
    by exists EmptyString, s.
  - intros H. destruct (IH H) as (pre & post & -> & Hpre & Hrep).
    exists (String a pre), post. simpl. by rewrite E, Hrep.
Qed.

Lemma truthy_includes (c : ascii) (s : string) :
  JsString.includes c s = true → JsString.truthy s = true.
Proof. by destruct s. Qed.

Lemma truthy_replace (pat rep : ascii) (s : string) :
  JsString.truthy (JsString.replace pat rep s) = JsString.truthy s.
Proof. destruct s as [|a s]; simpl; [done|]. by destruct (Ascii.eqb a pat). Qed.

Lemma truthy_nonempty (s : string) : JsString.truthy s = true ↔ s ≠ EmptyString.
Proof. destruct s; simpl; split; congruence. Qed.

(** ** What [createColumn] returns and when it throws *)

Lemma runFeatures_fold (table : Table.t) (column : Column.t) :
  runFeatures table column =
  fold_left (applyFeature (Table.core table)) (Object_values (Table._features table)) column.
Proof. reflexivity. Qed.

Lemma fold_features_keep {A} (field : Column.t → A) core features column :
  hooksKeep field features →
  field (fold_left (applyFeature core) (Object_values features) column) = field column.
Proof.
  unfold hooksKeep. generalize (Object_values features) as fs. intros fs H.
  revert column. induction H as [|f fs Hf _ IH]; intros column; simpl; [done|].
  rewrite IH. unfold applyFeature.
  destruct (TableFeature.createColumn f) as [hook|] eqn:E; [by apply Hf | done].
Qed.

Lemma runFeatures_keep {A} (field : Column.t → A) table column :
  hooksKeep field (Table._features table) →
  field (runFeatures table column) = field column.
Proof. rewrite runFeatures_fold. apply fold_features_keep. Qed.

Lemma createColumn_returns NODE_ENV table columnDef depth parent :
  truthy (resolveId (resolvedColumnDef table columnDef)) = true →
  createColumn NODE_ENV table columnDef depth parent =
  Return (runFeatures table
            (newColumn NODE_ENV (resolvedColumnDef table columnDef)
               (resolveId (resolvedColumnDef table columnDef)) depth parent)).
Proof. intros H. unfold createColumn. by rewrite H. Qed.

Lemma createColumn_throws NODE_ENV table columnDef depth parent :
  truthy (resolveId (resolvedColumnDef table columnDef)) = false →
  createColumn NODE_ENV table columnDef depth parent =
  Throw (Error
           (if not_production NODE_ENV then
              match get (ColumnDef.accessorFn (resolvedColumnDef table columnDef)) with
              | Some _ => "Columns require an id when using an accessorFn"
              | None => "Columns require an id when using a non-string header"
              end
            else EmptyString)).
Proof.
  intros H. unfold createColumn. rewrite H. simpl.
  by destruct (not_production NODE_ENV).
Qed.

Lemma createColumn_inv NODE_ENV table columnDef depth parent column :
  createColumn NODE_ENV table columnDef depth parent = Return column →
  truthy (resolveId (resolvedColumnDef table columnDef)) = true ∧
  column = runFeatures table
             (newColumn NODE_ENV (resolvedColumnDef table columnDef)
                (resolveId (resolvedColumnDef table columnDef)) depth parent).
Proof.
  intros H.
  destruct (truthy (resolveId (resolvedColumnDef table columnDef))) eqn:E.
  - rewrite createColumn_returns in H by done. by injection H as <-.
  - rewrite createColumn_throws in H by done. discriminate.
Qed.

Lemma String_truthy (id : option string) :
  truthy id = true → ∃ s, id = Some s ∧ String_ id = s ∧ s ≠ EmptyString.
Proof.
  destruct id as [s|]; simpl; [|done].
  intros H. exists s. by rewrite <- truthy_nonempty.
Qed.

Lemma resolveId_explicit (def : ColumnDef.t) (s : string) :
  get (ColumnDef.id def) = Some s → resolveId def = Some s.
Proof. unfold resolveId. by intros ->. Qed.

Lemma resolveId_accessorKey (def : ColumnDef.t) (k : string) :
  get (ColumnDef.id def) = None →
  get (ColumnDef.accessorKey def) = Some k →
  JsString.truthy k = true →
  resolveId def = Some (JsString.replace "." "_" k).
Proof. unfold resolveId. by intros -> -> ->. Qed.

Lemma resolveId_header (def : ColumnDef.t) :
  get (ColumnDef.id def) = None →
  (∀ k, get (ColumnDef.accessorKey def) = Some k → k = EmptyString) →
  resolveId def =
  match get (ColumnDef.header def) with
  | Some (TemplateString s) => Some s
  | _ => None
  end.
Proof.
  unfold resolveId. intros -> Hk.
  destruct (get (ColumnDef.accessorKey def)) as [k|]; [|done].
  by rewrite (Hk k eq_refl).
Qed.

(** What the features are handed: the object literal with the resolved id. *)
Lemma createColumn_with_id NODE_ENV table columnDef depth parent s :
  resolveId (resolvedColumnDef table columnDef) = Some s →
  s ≠ EmptyString →
  ∃ base,
    createColumn NODE_ENV table columnDef depth parent
    = Return (runFeatures table base) ∧
    Column.id base = s ∧
    Column.accessorFn base
    = resolveAccessorFn NODE_ENV (resolvedColumnDef table columnDef) ∧
    Column.columns base = [] ∧
    Column.extra base = ∅ ∧
    (hooksKeep Column.id (Table._features table) →
     Column.id (runFeatures table base) = s).
Proof.
  intros Hid Hs. eexists. split; [|split; [|split; [|split; [|split]]]].
  - apply createColumn_returns. rewrite Hid. simpl. by apply truthy_nonempty.
  - simpl. by rewrite Hid.
  - done.
  - done.
  - done.
  - intros Hk. rewrite runFeatures_keep by done. simpl. by rewrite Hid.
Qed.

(** C1.  When the resolved definition has no [id] and its [accessorKey]
    contains a dot, createColumn returns a node whose resolved id is the
    accessorKey with the first dot, and only the first, replaced by an
    underscore: the key splits as [pre.post] with no dot in [pre] and the id
    is [pre_post]; so "a.b" gives "a_b" and "a.b.c" gives "a_b.c".  The
    returned node still has that id when the feature hooks leave [id]
    alone. *)
Theorem createColumn_id_first_dot NODE_ENV table columnDef depth parent k :
  get (ColumnDef.id (resolvedColumnDef table columnDef)) = None →
  get (ColumnDef.accessorKey (resolvedColumnDef table columnDef)) = Some k →
  JsString.includes "." k = true →
  ∃ base pre post,
    createColumn NODE_ENV table columnDef depth parent
    = Return (runFeatures table base) ∧
    k = pre ++ "." ++ post ∧
    JsString.includes "." pre = false ∧
    Column.id base = pre ++ "_" ++ post ∧
    (k = "a.b" → Column.id base = "a_b") ∧
    (k = "a.b.c" → Column.id base = "a_b.c") ∧
    (hooksKeep Column.id (Table._features table) →
     Column.id (runFeatures table base) = Column.id base).
Proof.
  intros Hid Hkey Hdot.
  pose proof (truthy_includes _ _ Hdot) as Htruthy.
  pose proof (resolveId_accessorKey _ _ Hid Hkey Htruthy) as Hres.
  destruct (createColumn_with_id NODE_ENV table columnDef depth parent _ Hres)
    as (base & Hret & Hbase & _ & _ & _ & Hkeep).
  { apply truthy_nonempty. by rewrite truthy_replace. }
  destruct (replace_first_dot "." "_" k Hdot) as (pre & post & Hk & Hpre & Hrep).
  exists base, pre, post. rewrite Hbase.
  split; [done|]. split; [done|]. split; [done|]. split; [done|].
  split; [by intros ->|]. split; [by intros ->|]. done.
Qed.

Lemma createColumn_id_first_dot_witness :
  ∃ base pre post,
    createColumn None plainTable (keyed "a.b.c") 0 None
    = Return (runFeatures plainTable base) ∧
    "a.b.c" = pre ++ "." ++ post ∧
    JsString.includes "." pre = false ∧
    Column.id base = pre ++ "_" ++ post ∧
    ("a.b.c" = "a.b" → Column.id base = "a_b") ∧
    ("a.b.c" = "a.b.c" → Column.id base = "a_b.c") ∧
    (hooksKeep Column.id (Table._features plainTable) →
     Column.id (runFeatures plainTable base) = Column.id base).
Proof.
  apply (createColumn_id_first_dot None plainTable (keyed "a.b.c") 0 None "a.b.c");
    reflexivity.
Defined.

(** C2.  When no id can be resolved (the resolved definition has no [id],
    no [accessorKey] and no string [header]), createColumn completes by
    throwing an [Error], whatever [NODE_ENV] is: the build mode decides
    the message only, which is empty in production. *)
Theorem createColumn_missing_id table columnDef depth parent :
  get (ColumnDef.id (resolvedColumnDef table columnDef)) = None →
  get (ColumnDef.accessorKey (resolvedColumnDef table columnDef)) = None →
  (∀ s, get (ColumnDef.header (resolvedColumnDef table columnDef))
        ≠ Some (TemplateString s)) →
  ∀ NODE_ENV, ∃ message,
    createColumn NODE_ENV table columnDef depth parent = Throw (Error message) ∧
    (NODE_ENV = Some "production" → message = EmptyString) ∧
    (NODE_ENV ≠ Some "production" →
     message =
     match get (ColumnDef.accessorFn (resolvedColumnDef table columnDef)) with
     | Some _ => "Columns require an id when using an accessorFn"
     | None => "Columns require an id when using a non-string header"
     end).
Proof.
  intros Hid Hkey Hheader NODE_ENV. eexists. split; [|split].
  - apply createColumn_throws. rewrite resolveId_header; [|done|by rewrite Hkey].
    destruct (get (ColumnDef.header _)) as [[s|r]|] eqn:E; [|done|done].
    by destruct (Hheader s).
  - by intros ->.
  - intros Hne. destruct NODE_ENV as [s|]; simpl; [|done].
    destruct (String.eqb s "production") eqn:E; [|done].
    apply String.eqb_eq in E as ->. done.
Qed.

Lemma createColumn_missing_id_witness :
  createColumn (Some "production") plainTable fnOnly 0 None
  = Throw (Error EmptyString) ∧
  createColumn (Some "development") plainTable fnOnly 0 None
  = Throw (Error "Columns require an id when using an accessorFn").
Proof.
  assert (∀ s, get (ColumnDef.header (resolvedColumnDef plainTable fnOnly))
               ≠ Some (TemplateString s)) as Hheader by (intros s; discriminate).
  split.
  - destruct (createColumn_missing_id plainTable fnOnly 0 None
                eq_refl eq_refl Hheader (Some "production"))
      as (message & -> & Hproduction & _).
    by rewrite Hproduction.
  - destruct (createColumn_missing_id plainTable fnOnly 0 None
                eq_refl eq_refl Hheader (Some "development"))
      as (message & -> & _ & Hdevelopment).
    rewrite Hdevelopment; [reflexivity|discriminate].
Defined.

(** C3, as the code has it.  When the resolved definition has an
    [accessorFn], the node's accessor is that very function, and the id is
    resolved as for any other definition: the explicit [id], else the
    non-empty [accessorKey] with its first dot replaced, else a string
    [header].  The function itself supplies no id: with none of the three,
    createColumn throws. *)
Theorem createColumn_accessorFn NODE_ENV table columnDef depth parent f :
  get (ColumnDef.accessorFn (resolvedColumnDef table columnDef)) = Some f →
  (∀ column,
     createColumn NODE_ENV table columnDef depth parent = Return column →
     ∃ base,
       column = runFeatures table base ∧
       Column.accessorFn base = Some f ∧
       (hooksKeep Column.accessorFn (Table._features table) →
        Column.accessorFn column = Some f) ∧
       (∀ s, get (ColumnDef.id (resolvedColumnDef table columnDef)) = Some s →
             Column.id base = s) ∧
       (∀ k, get (ColumnDef.id (resolvedColumnDef table columnDef)) = None →
             get (ColumnDef.accessorKey (resolvedColumnDef table columnDef)) = Some k →
             k ≠ EmptyString →
             Column.id base = JsString.replace "." "_" k) ∧
       (∀ s, get (ColumnDef.id (resolvedColumnDef table columnDef)) = None →
             (∀ k, get (ColumnDef.accessorKey (resolvedColumnDef table columnDef)) = Some k →
                   k = EmptyString) →
             get (ColumnDef.header (resolvedColumnDef table columnDef))
             = Some (TemplateString s) →
             Column.id base = s)) ∧
  (get (ColumnDef.id (resolvedColumnDef table columnDef)) = None →
   (∀ k, get (ColumnDef.accessorKey (resolvedColumnDef table columnDef)) = Some k →
         k = EmptyString) →
   (∀ s, get (ColumnDef.header (resolvedColumnDef table columnDef))
         ≠ Some (TemplateString s)) →
   createColumn NODE_ENV table columnDef depth parent
   = Throw (Error (if not_production NODE_ENV
                   then "Columns require an id when using an accessorFn"
                   else EmptyString))).
Proof.
  intros Hfn. split.
  - intros column Hret. apply createColumn_inv in Hret as [Htruthy ->].
    eexists. split; [done|].
    split; [by simpl; unfold resolveAccessorFn; rewrite Hfn|].
    split.
    { intros Hkeep. rewrite runFeatures_keep by done.
      simpl. unfold resolveAccessorFn. by rewrite Hfn. }
    split; [|split].
    + intros s Hid. simpl. by rewrite (resolveId_explicit _ _ Hid).
    + intros k Hid Hkey Hk. simpl.
      rewrite (resolveId_accessorKey _ _ Hid Hkey); [done|].
      by apply truthy_nonempty.
    + intros s Hid Hkey Hheader. simpl.
      rewrite resolveId_header by done. by rewrite Hheader.
  - intros Hid Hkey Hheader. rewrite createColumn_throws.
    + by rewrite Hfn.
    + rewrite resolveId_header by done.
      destruct (get (ColumnDef.header _)) as [[s|r]|] eqn:E; [|done|done].
      by destruct (Hheader s).
Qed.

Lemma createColumn_accessorFn_witness :
  ∃ column,
    createColumn None plainTable fnAndKey 0 None = Return column ∧
    Column.accessorFn column = Some (λ row, ret row) ∧
    Column.id column = "a_b".
Proof.
  pose proof (createColumn_accessorFn None plainTable fnAndKey 0 None
                (λ row, ret row) eq_refl) as [Hret _].
  eexists. split; [reflexivity|].
  destruct (Hret _ eq_refl) as (base & Hbase & Hfn & Hkeep & _ & Hkey & _).
  split.
  - apply Hkeep. constructor.
  - reflexivity.
Defined.

(** C3 as the claim states it fails: for the definition
    [{accessorFn, accessorKey: 'a.b'}], without [id] and [header],
    createColumn returns a node whose id is "a_b", supplied by the
    accessorKey, and comes from neither [def.id] nor [def.header]. *)
Lemma accessorKey_supplies_id_despite_accessorFn :
  (∃ column,
     createColumn None plainTable fnAndKey 0 None = Return column ∧
     Column.id column = "a_b" ∧
     is_Some (get (ColumnDef.accessorFn (resolvedColumnDef plainTable fnAndKey))) ∧
     get (ColumnDef.id (resolvedColumnDef plainTable fnAndKey)) = None ∧
     get (ColumnDef.header (resolvedColumnDef plainTable fnAndKey)) = None) ∧
  ¬ (∀ NODE_ENV table columnDef depth parent f column,
       get (ColumnDef.accessorFn (resolvedColumnDef table columnDef)) = Some f →
       createColumn NODE_ENV table columnDef depth parent = Return column →
       Column.accessorFn column = Some f ∧
       (get (ColumnDef.id (resolvedColumnDef table columnDef))
        = Some (Column.id column) ∨
        get (ColumnDef.header (resolvedColumnDef table columnDef))
        = Some (TemplateString (Column.id column)))).
Proof.
  split.
  - eexists. split; [reflexivity|]. split; [reflexivity|].
    split; [by eexists|]. split; reflexivity.
  - intros claim.
    destruct (claim None plainTable fnAndKey 0%Z None _ _ eq_refl eq_refl)
      as [_ [Hid|Hheader]]; discriminate.
Qed.

(** C4.  Resolution priority of the id.  An explicit non-empty [id] is the
    node's id as it stands ([String] of a string is that string), whatever
    [accessorKey] and [header] are; without [id], a non-empty [accessorKey]
    gives the id (first dot replaced), whatever [header] is; without both,
    a non-empty string [header] gives it.  The returned node keeps that id
    when the feature hooks leave [id] alone. *)
Theorem createColumn_id_priority NODE_ENV table columnDef depth parent :
  (∀ s, get (ColumnDef.id (resolvedColumnDef table columnDef)) = Some s →
        s ≠ EmptyString →
        ∃ base,
          createColumn NODE_ENV table columnDef depth parent
          = Return (runFeatures table base) ∧
          Column.id base = s ∧
          (hooksKeep Column.id (Table._features table) →
           Column.id (runFeatures table base) = s)) ∧
  (∀ k, get (ColumnDef.id (resolvedColumnDef table columnDef)) = None →
        get (ColumnDef.accessorKey (resolvedColumnDef table columnDef)) = Some k →
        k ≠ EmptyString →
        ∃ base,
          createColumn NODE_ENV table columnDef depth parent
          = Return (runFeatures table base) ∧
          Column.id base = JsString.replace "." "_" k ∧
          (hooksKeep Column.id (Table._features table) →
           Column.id (runFeatures table base) = JsString.replace "." "_" k)) ∧
  (∀ s, get (ColumnDef.id (resolvedColumnDef table columnDef)) = None →
        (∀ k, get (ColumnDef.accessorKey (resolvedColumnDef table columnDef)) = Some k →
              k = EmptyString) →
        get (ColumnDef.header (resolvedColumnDef table columnDef))
        = Some (TemplateString s) →
        s ≠ EmptyString →
        ∃ base,
          createColumn NODE_ENV table columnDef depth parent
          = Return (runFeatures table base) ∧
          Column.id base = s ∧
          (hooksKeep Column.id (Table._features table) →
           Column.id (runFeatures table base) = s)).
Proof.
  split; [|split].
  - intros s Hid Hs.
    destruct (createColumn_with_id NODE_ENV table columnDef depth parent s)
      as (base & ? & ? & _ & _ & _ & ?); [by apply resolveId_explicit|done|].
    by exists base.
  - intros k Hid Hkey Hk.
    destruct (createColumn_with_id NODE_ENV table columnDef depth parent
                (JsString.replace "." "_" k))
      as (base & ? & ? & _ & _ & _ & ?).
    + apply resolveId_accessorKey; [done|done|by apply truthy_nonempty].
    + apply truthy_nonempty. rewrite truthy_replace. by apply truthy_nonempty.
    + by exists base.
  - intros s Hid Hkey Hheader Hs.
    destruct (createColumn_with_id NODE_ENV table columnDef depth parent s)
      as (base & ? & ? & _ & _ & _ & ?); [|done|].
    + rewrite resolveId_header by done. by rewrite Hheader.
    + by exists base.
Qed.

Lemma createColumn_id_priority_witness :
  ∃ base,
    createColumn None plainTable fullDef 0 None
    = Return (runFeatures plainTable base) ∧
    Column.id base = "name" ∧
    (hooksKeep Column.id (Table._features plainTable) →
     Column.id (runFeatures plainTable base) = "name").
Proof.
  destruct (createColumn_id_priority None plainTable fullDef 0 None) as [Hid _].
  apply (Hid "name"); [reflexivity | discriminate].
Defined.

(** C10.  When the resolved definition's [id] is the empty string,
    createColumn throws the missing-id error in every build mode, whatever
    [accessorKey] and [header] are; and whenever createColumn returns, the
    id it resolved is not the empty string (nor is the returned node's,
    when the feature hooks leave [id] alone). *)
Theorem createColumn_empty_id table columnDef :
  (get (ColumnDef.id (resolvedColumnDef table columnDef)) = Some EmptyString →
   ∀ NODE_ENV depth parent, ∃ message,
     createColumn NODE_ENV table columnDef depth parent = Throw (Error message)) ∧
  (∀ NODE_ENV depth parent column,
     createColumn NODE_ENV table columnDef depth parent = Return column →
     ∃ base,
       column = runFeatures table base ∧
       Column.id base ≠ EmptyString ∧
       (hooksKeep Column.id (Table._features table) →
        Column.id column ≠ EmptyString)).
Proof.
  split.
  - intros Hid NODE_ENV depth parent. eexists.
    apply createColumn_throws. by rewrite (resolveId_explicit _ _ Hid).
  - intros NODE_ENV depth parent column Hret.
    apply createColumn_inv in Hret as [Htruthy ->].
    destruct (String_truthy _ Htruthy) as (s & _ & HString & Hs).
    eexists. split; [done|]. split.
    + simpl. by rewrite HString.
    + intros Hkeep. rewrite runFeatures_keep by done. simpl. by rewrite HString.
Qed.

Lemma createColumn_empty_id_witness :
  ∃ message,
    createColumn (Some "production") plainTable emptyId 0 None
    = Throw (Error message).
Proof.
  destruct (createColumn_empty_id plainTable emptyId) as [Hthrow _].
  apply Hthrow. reflexivity.
Defined.

(** ** The accessor of a dotted key *)

Lemma deepAccessor_fold NODE_ENV k row :
  deepAccessor NODE_ENV k row
  = fold_left (deepStep NODE_ENV k) (JsString.split "." k) (ret row).
Proof. reflexivity. Qed.

Lemma not_production_true NODE_ENV :
  NODE_ENV ≠ Some "production" → not_production NODE_ENV = true.
Proof.
  intros Hne. destruct NODE_ENV as [s|]; simpl; [|done].
  destruct (String.eqb s "production") eqn:E; [|done].
  apply String.eqb_eq in E as ->. done.
Qed.

Lemma walk_stepInto key path v : walk (key :: path) v = walk path (stepInto v key).
Proof. reflexivity. Qed.

Lemma walk_Undefined path : walk path Undefined = Undefined.
Proof. induction path as [|key path IH]; [done|]. by rewrite walk_stepInto. Qed.

(** [v?.[key]] leaves the console alone.  It completes with [undefined] on
    [null] and [undefined], with the property on an object that owns it,
    and throws only what the realm's read throws. *)
Lemma opt_index_run v key r out :
  ∃ c, opt_index v key r out = (c, out) ∧
       (nullish v = true → c = Return Undefined) ∧
       (∀ props, v = Object props → has_own props key = true →
                 c = Return (own_property props key)) ∧
       (∀ v', c = Return v' → v' ≠ Undefined → nullish v = false) ∧
       (∀ e, c = Throw e → beyondOwn r v key = Throw e).
Proof.
  unfold opt_index, index.
  destruct v as [| |b|n|s|props|handle]; simpl;
    try (eexists; split; [reflexivity|]; repeat split; try done; congruence).
  destruct (has_own props key) eqn:Hown; simpl.
  - eexists. split; [reflexivity|]. repeat split; try done; congruence.
  - eexists. split; [reflexivity|]. repeat split; try done; congruence.
Qed.

Lemma opt_index_own v key r out :
  ownPath [key] v = true →
  opt_index v key r out = (Return (stepInto v key), out).
Proof.
  intros Hown. destruct (opt_index_run v key r out) as (c & -> & Hnull & Hobj & _).
  destruct v as [| |b|n|s|props|handle]; simpl in Hown; try done.
  - by rewrite Hnull.
  - by rewrite Hnull.
  - rewrite andb_true_r in Hown. by rewrite (Hobj props).
Qed.

(** One turn of the loop, on a run of the turns before it. *)
Lemma deepStep_run NODE_ENV k (acc : Js value) key r out c out1 :
  acc r out = (c, out1) →
  deepStep NODE_ENV k acc key r out
  = match c with
    | Throw e => (Throw e, out1)
    | Return v =>
        match (opt_index v key r out1).1 with
        | Throw e => (Throw e, out1)
        | Return v' =>
            (Return v',
             (out1 ++ (if not_production NODE_ENV && is_undefined v'
                       then [deepWarning key k] else []))%list)
        end
    end.
Proof.
  intros Hacc. unfold deepStep, bind at 1. rewrite Hacc.
  destruct c as [v|e]; [|done].
  unfold bind at 1. destruct (opt_index_run v key r out1) as (c' & -> & _).
  destruct c' as [v'|e]; [|done]. simpl.
  unfold bind. destruct (not_production NODE_ENV && is_undefined v'); simpl.
  - done.
  - by rewrite (right_id_L [] (++)).
Qed.

Lemma ownPath_step key path v :
  ownPath (key :: path) v = true →
  ownPath [key] v = true ∧ ownPath path (stepInto v key) = true.
Proof.
  destruct v as [| |b|n|s|props|handle]; simpl; try done.
  - intros _. split; [done|]. by destruct path.
  - intros _. split; [done|]. by destruct path.
  - intros [-> ->]%andb_prop. done.
Qed.

(** The run of the accessor along a path of own properties, in any
    realm. *)
Lemma deepAccessor_own_run NODE_ENV k r (path : list string) :
  ∀ (acc : Js value) (v : value) (ws : list string),
    (∀ out, acc r out = (Return v, (out ++ ws)%list)) →
    ownPath path v = true →
    ∀ out,
      fold_left (deepStep NODE_ENV k) path acc r out
      = (Return (walk path v),
         (out ++ ws ++ (if not_production NODE_ENV
                        then walkWarnings k path v else []))%list).
Proof.
  induction path as [|key path IH]; intros acc v ws Hacc Hown out.
  - simpl. rewrite Hacc.
    by destruct (not_production NODE_ENV); rewrite (right_id_L [] (++)).
  - destruct (ownPath_step _ _ _ Hown) as [Hkey Hpath]. cbn [fold_left].
    rewrite (IH _ (stepInto v key)
               (ws ++ (if not_production NODE_ENV && is_undefined (stepInto v key)
                       then [deepWarning key k] else []))%list).
    + rewrite walk_stepInto. f_equal. f_equal. rewrite <- (assoc_L (++)). f_equal.
      by destruct (not_production NODE_ENV).
    + clear out. intros out.
      rewrite (deepStep_run _ _ _ _ _ _ _ _ (Hacc out)), opt_index_own by done.
      simpl. by rewrite <- (assoc_L (++)).
    + done.
Qed.

(** In a realm whose reads do not throw, the accessor returns. *)
Lemma deepAccessor_quiet_run NODE_ENV k r (path : list string) :
  quiet r →
  ∀ (acc : Js value),
    (∀ out, ∃ v ws, acc r out = (Return v, (out ++ ws)%list)) →
    ∀ out, ∃ v ws,
      fold_left (deepStep NODE_ENV k) path acc r out = (Return v, (out ++ ws)%list).
Proof.
  intros Hquiet. induction path as [|key path IH]; intros acc Hacc out.
  - apply Hacc.
  - cbn [fold_left]. apply IH. clear out. intros out.
    destruct (Hacc out) as (v & ws & Hout).
    rewrite (deepStep_run _ _ _ _ _ _ _ _ Hout).
    destruct (opt_index_run v key r (out ++ ws)%list) as (c & -> & _ & _ & _ & Hthrow).
    destruct c as [v'|e]; simpl.
    + eexists _, _. by rewrite <- (assoc_L (++)).
    + destruct (Hquiet v key) as [x Hx]. rewrite (Hthrow e eq_refl) in Hx. done.
Qed.

(** C5.  When the resolved definition has no [accessorFn] and its
    [accessorKey] contains a dot, the accessor of the node createColumn
    returns walks the row along the segments of the key with nullish-safe
    reads.  Where every segment names an own property of the object
    reached, or [null] or [undefined] has been reached, it returns the
    value of the walk, [undefined] once the walk has met [null] or
    [undefined], whatever the realm (and logs nothing in production).
    Reading through [null] or [undefined] never throws: in a realm whose
    reads beyond own properties do not throw, the accessor returns on
    every row.  For the key "a.b" it returns 5 on [{a: {b: 5}}] and
    [undefined] on [{a: null}]. *)
Theorem createColumn_deep_accessor NODE_ENV table columnDef depth parent k column :
  get (ColumnDef.accessorFn (resolvedColumnDef table columnDef)) = None →
  get (ColumnDef.accessorKey (resolvedColumnDef table columnDef)) = Some k →
  JsString.includes "." k = true →
  createColumn NODE_ENV table columnDef depth parent = Return column →
  ∃ base accessor,
    column = runFeatures table base ∧
    Column.accessorFn base = Some accessor ∧
    (hooksKeep Column.accessorFn (Table._features table) →
     Column.accessorFn column = Some accessor) ∧
    (∀ row r out,
       ownPath (JsString.split "." k) row = true →
       ∃ warnings,
         accessor row r out
         = (Return (walk (JsString.split "." k) row), (out ++ warnings)%list) ∧
         (NODE_ENV = Some "production" → warnings = [])) ∧
    (∀ row r out,
       quiet r →
       ∃ v warnings, accessor row r out = (Return v, (out ++ warnings)%list)) ∧
    (k = "a.b" →
     ∀ r out,
       (accessor (Object [("a", Object [("b", Number 5)])]) r out).1
       = Return (Number 5) ∧
       (accessor (Object [("a", Null)]) r out).1 = Return Undefined).
Proof.
  intros Hfn Hkey Hdot Hret.
  apply createColumn_inv in Hret as [_ ->].
  assert (Hacc : resolveAccessorFn NODE_ENV (resolvedColumnDef table columnDef)
                 = Some (deepAccessor NODE_ENV k)).
  { unfold resolveAccessorFn. rewrite Hfn, Hkey, Hdot.
    by rewrite (truthy_includes _ _ Hdot). }
  assert (Hwalk : ∀ row r out,
            ownPath (JsString.split "." k) row = true →
            ∃ warnings,
              deepAccessor NODE_ENV k row r out
              = (Return (walk (JsString.split "." k) row), (out ++ warnings)%list) ∧
              (NODE_ENV = Some "production" → warnings = [])).
  { intros row r out Hown. rewrite deepAccessor_fold.
    rewrite (deepAccessor_own_run NODE_ENV k r _ _ row []); [|by intros out'; rewrite (right_id_L [] (++))|done].
    eexists. split; [done|]. by intros ->. }
  exists (newColumn NODE_ENV (resolvedColumnDef table columnDef)
            (resolveId (resolvedColumnDef table columnDef)) depth parent),
         (deepAccessor NODE_ENV k).
  split; [done|]. split; [done|]. split.
  { intros Hkeep. by rewrite runFeatures_keep. }
  split; [done|]. split.
  { intros row r out Hquiet. rewrite deepAccessor_fold.
    apply deepAccessor_quiet_run; [done|].
    intros out'. exists row, []. by rewrite (right_id_L [] (++)). }
  intros -> r out. split.
  - destruct (Hwalk (Object [("a", Object [("b", Number 5)])]) r out eq_refl)
      as (ws & -> & _).
    reflexivity.
  - destruct (Hwalk (Object [("a", Null)]) r out eq_refl) as (ws & -> & _).
    reflexivity.
Qed.

Lemma createColumn_deep_accessor_witness :
  ∃ column accessor,
    createColumn None plainTable (keyed "a.b") 0 None = Return column ∧
    Column.accessorFn column = Some accessor ∧
    (∀ r out,
       (accessor (Object [("a", Object [("b", Number 5)])]) r out).1
       = Return (Number 5) ∧
       (accessor (Object [("a", Null)]) r out).1 = Return Undefined).
Proof.
  destruct (createColumn_deep_accessor None plainTable (keyed "a.b") 0 None "a.b"
              _ eq_refl eq_refl eq_refl eq_refl)
    as (base & accessor & Hcol & Hbase & Hkeep & _ & _ & Hrows).
  eexists _, accessor. split; [reflexivity|]. split.
  - apply Hkeep. constructor.
  - apply Hrows. reflexivity.
Defined.

(** ** Feature hooks *)

Lemma fold_features_last core (fs : list TableFeature.t) f key v column :
  setsField f key v →
  Column.extra (fold_left (applyFeature core) (fs ++ [f])%list column) !! key = Some v.
Proof.
  intros (hook & Hhook & Hset). rewrite fold_left_app. simpl.
  unfold applyFeature at 1. rewrite Hhook. apply Hset.
Qed.

(** C9.  createColumn hands the node to the features one after the other,
    in the order [Object.values] lists them, each hook once and each on
    the node the previous ones left: the returned node is the fold of the
    hooks over the registry, starting from the node createColumn built
    (which has no extra field).  Hence when two features set the same
    extra field and no feature after the second touches it, the returned
    node holds the value of the second. *)
Theorem createColumn_features_in_order NODE_ENV table columnDef depth parent column :
  createColumn NODE_ENV table columnDef depth parent = Return column →
  ∃ base,
    Column.extra base = ∅ ∧
    column = fold_left (applyFeature (Table.core table))
               (Object_values (Table._features table)) base ∧
    ∀ before name1 feature1 between name2 feature2 after key v1 v2,
      Table._features table
      = (before ++ [(name1, feature1)] ++ between
         ++ [(name2, feature2)] ++ after)%list →
      setsField feature1 key v1 →
      setsField feature2 key v2 →
      hooksKeep (λ column, Column.extra column !! key) after →
      Column.extra column !! key = Some v2.
Proof.
  intros Hret. apply createColumn_inv in Hret as [_ ->].
  eexists. split; [|split]; [|apply runFeatures_fold|]; [done|].
  intros before name1 feature1 between name2 feature2 after key v1 v2
    Hfeatures _ Hset2 Hafter.
  rewrite runFeatures_fold, Hfeatures, !(assoc_L (++)).
  unfold Object_values. rewrite fmap_app, fold_left_app.
  rewrite (fold_features_keep (λ column, Column.extra column !! key) _ after)
    by done.
  rewrite fmap_app. simpl. by apply fold_features_last.
Qed.

Lemma createColumn_features_in_order_witness :
  ∃ column,
    createColumn None twoSetters (keyed "a.b") 0 None = Return column ∧
    Column.extra column !! "sortable" = Some (Bool true).
Proof.
  destruct (createColumn_features_in_order None twoSetters (keyed "a.b") 0 None
              _ eq_refl) as (base & _ & _ & Hlast).
  eexists. split; [reflexivity|].
  apply (Hlast [] "First" (fieldSetter "sortable" (Bool false)) []
           "Second" (fieldSetter "sortable" (Bool true)) []
           "sortable" (Bool false) (Bool true)).
  - reflexivity.
  - eexists. split; [reflexivity|]. intros c core. apply lookup_insert_eq.
  - eexists. split; [reflexivity|]. intros c core. apply lookup_insert_eq.
  - constructor.
Defined.

(** ** Column trees in the store *)

Lemma tree_induction (P : tree → Prop) :
  (∀ r ts, Forall P ts → P (Tree r ts)) → ∀ t, P t.
Proof.
  intros step. fix IH 1. intros [r ts]. apply step.
  induction ts as [|t ts IHts]; constructor; [apply IH | apply IHts].
Qed.

Lemma height_children r ts n :
  (height (Tree r ts) ≤ S n)%nat → Forall (λ t, (height t ≤ n)%nat) ts.
Proof.
  simpl. intros H. apply le_S_n in H.
  induction ts as [|t ts IH]; simpl in *; constructor; [lia|apply IH; lia].
Qed.

Lemma height_positive t : (0 < height t)%nat.
Proof. destruct t. simpl. lia. Qed.

Global Instance sameColumns_refl : Reflexive sameColumns.
Proof. by intros h. Qed.

Global Instance sameColumns_trans : Transitive sameColumns.
Proof. unfold sameColumns. intros h1 h2 h3 H12 H23. by rewrite H23. Qed.

Lemma sameColumns_lookup h h' r node :
  sameColumns h h' → h !! r = Some node →
  ∃ node', h' !! r = Some node' ∧ Node.column node' = Node.column node.
Proof.
  intros Hsame Hr.
  apply (list_lookup_fmap_Some_2 Node.column) in Hr. rewrite <- Hsame in Hr.
  apply list_lookup_fmap_Some_1 in Hr as (node' & ? & ?). by exists node'.
Qed.

Lemma sameColumns_sym h h' : sameColumns h h' → sameColumns h' h.
Proof. unfold sameColumns. by intros ->. Qed.

Lemma sameColumns_alter (f : Node.t → Node.t) r h :
  (∀ node, Node.column (f node) = Node.column node) →
  sameColumns h (alter f r h).
Proof.
  intros Hf. unfold sameColumns.
  rewrite (list_fmap_alter Node.column f (λ c, c)) by (apply Forall_forall; auto).
  by apply list_alter_id.
Qed.

Lemma shaped_sameColumns h h' t :
  sameColumns h h' → shaped h t → shaped h' t.
Proof.
  intros Hsame. induction t as [r ts IH] using tree_induction.
  inversion 1 as [r' node ts' Hr Hcols Hts]; subst.
  destruct (sameColumns_lookup _ _ _ _ Hsame Hr) as (node' & Hr' & Hnode).
  apply shaped_Tree with node'; [done|by rewrite Hnode|].
  rewrite Forall_forall in *. auto.
Qed.

Lemma shaped_unique h t t' :
  shaped h t → shaped h t' → root t = root t' → t = t'.
Proof.
  revert t'. induction t as [r ts IH] using tree_induction.
  intros [r' ts'] Ht Ht'. simpl. intros <-.
  inversion Ht as [? node ? Hr Hcols Hts]; subst.
  inversion Ht' as [? node' ? Hr' Hcols' Hts']; subst.
  f_equal. assert (node' = node) as -> by congruence.
  rewrite Hcols in Hcols'. clear Ht Ht' Hr Hr' Hcols.
  revert ts' Hcols' Hts'.
  induction ts as [|t ts IHts]; intros [|t' ts'] Hroots Hts'; try done.
  simpl in Hroots. injection Hroots as Hroot Hroots.
  apply Forall_cons in IH as [IHt IH]. apply Forall_cons in Hts as [Ht Hts].
  apply Forall_cons in Hts' as [Ht' Hts'].
  f_equal; [by apply IHt | by apply IHts].
Qed.

Lemma shaped_children h t : shaped h t → Forall (shaped h) (children t).
Proof. by inversion 1. Qed.

Lemma shaped_lookup h t :
  shaped h t →
  ∃ node, h !! root t = Some node ∧
          Column.columns (Node.column node) = root <$> children t.
Proof. inversion 1 as [r node ts]; subst. by exists node. Qed.

(** ** The memoised accessors *)

(** A call of a memoised function either hits the cache, and then returns
    the cached result and leaves the store alone whatever [fn] is, or
    misses it, and then runs [fn] and caches what it returned. *)
Lemma memo_cases {D R} (same : D → D → bool) newDeps
    (fn : list D → store → option (R * store)) cell save h :
  (∃ deps result,
     cell = Some (deps, result) ∧ depsUnchanged same deps newDeps = true ∧
     memo same newDeps fn cell save h = Some (result, h)) ∨
  ((∀ deps result, cell = Some (deps, result) →
                   depsUnchanged same deps newDeps = false) ∧
   memo same newDeps fn cell save h
   = '(result, h') ← fn newDeps h; Some (result, save (Some (newDeps, result)) h')).
Proof.
  unfold memo. destruct cell as [[deps result]|].
  - destruct (depsUnchanged same deps newDeps) eqn:E.
    + left. by exists deps, result.
    + right. split; [|done]. by intros ? ? [= <- <-].
  - right. by split.
Qed.

(** Case analysis on the call of [memo] at store [h] in the goal: a hit,
    with the cached dependencies and result named, or a miss. *)
Ltac case_memo h deps cached :=
  match goal with
  | |- context [memo ?same ?newDeps ?fn ?cell ?save h] =>
      let Hcell := fresh "Hcell" in
      let Hdeps := fresh "Hdeps" in
      destruct (memo_cases same newDeps fn cell save h)
        as [(deps & cached & Hcell & Hdeps & ->)|[_ ->]]
  end.

Lemma memo_hit {D R} (same : D → D → bool) newDeps
    (fn : list D → store → option (R * store)) deps result save h :
  depsUnchanged same deps newDeps = true →
  memo same newDeps fn (Some (deps, result)) save h = Some (result, h).
Proof. unfold memo. by intros ->. Qed.

Lemma depsUnchanged_refl {D} (same : D → D → bool) (deps : list D) :
  (∀ d, same d d = true) → depsUnchanged same deps deps = true.
Proof. intros Hsame. induction deps as [|d deps IH]; simpl; [done|]. by rewrite Hsame. Qed.

Lemma flatMap_trees (f : ref → store → option (list ref * store))
    (spec : tree → list ref) (I : store → Prop) (ts : list tree) :
  Forall (λ t, ∀ h, I h → ∃ h', f (root t) h = Some (spec t, h') ∧ I h') ts →
  ∀ h, I h →
       ∃ h', flatMap f (root <$> ts) h = Some (flat_map spec ts, h') ∧ I h'.
Proof.
  induction 1 as [|t ts Ht _ IH]; intros h Hh; csimpl.
  - by exists h.
  - destruct (Ht h Hh) as (h1 & -> & Hh1). csimpl.
    destruct (IH h1 Hh1) as (h2 & -> & Hh2). csimpl.
    by exists h2.
Qed.

Global Instance flatStep_refl : Reflexive flatStep.
Proof. by intros h. Qed.
Global Instance flatStep_trans : Transitive flatStep.
Proof.
  intros h1 h2 h3 [? H12] [? H23]. split; [by etrans|]. by rewrite H23.
Qed.
Global Instance leafStep_refl : Reflexive leafStep.
Proof. by intros h. Qed.
Global Instance leafStep_trans : Transitive leafStep.
Proof.
  intros h1 h2 h3 [? H12] [? H23]. split; [by etrans|]. by rewrite H23.
Qed.

Lemma flatStep_alter cell r h :
  flatStep h (alter (Node.set_flatColumns cell) r h).
Proof.
  split; [by apply sameColumns_alter|].
  rewrite (list_fmap_alter Node.leafColumns _ (λ c, c)) by (apply Forall_forall; auto).
  by apply list_alter_id.
Qed.

Lemma leafStep_alter cell r h :
  leafStep h (alter (Node.set_leafColumns cell) r h).
Proof.
  split; [by apply sameColumns_alter|].
  rewrite (list_fmap_alter Node.flatColumns _ (λ c, c)) by (apply Forall_forall; auto).
  by apply list_alter_id.
Qed.

Lemma flatFresh_alter h t deps :
  flatFresh h → shaped h t →
  flatFresh (alter (Node.set_flatColumns (Some (deps, preorder t))) (root t) h).
Proof.
  intros Hfresh Ht t0 node0 deps0 result0 Ht0 Hlookup Hcell Hdeps.
  assert (shaped h t0) as Ht0'.
  { eapply shaped_sameColumns; [|done]. apply sameColumns_sym, sameColumns_alter. done. }
  destruct (decide (root t = root t0)) as [Heq|Hne].
  - rewrite (shaped_unique h t0 t) by done.
    rewrite <- Heq, list_lookup_alter_eq in Hlookup.
    apply fmap_Some in Hlookup as (node & _ & ->).
    simpl in Hcell. congruence.
  - rewrite list_lookup_alter_ne in Hlookup by done. by eapply Hfresh.
Qed.

Lemma leafFresh_alter table h t deps :
  leafFresh table h → shaped h t →
  leafFresh table
    (alter (Node.set_leafColumns
              (Some (deps, leafOrder (OrderColumnsFn.apply
                                        (Table._getOrderColumnsFn table)) t)))
       (root t) h).
Proof.
  intros Hfresh Ht t0 node0 deps0 result0 Ht0 Hlookup Hcell Hdeps.
  assert (shaped h t0) as Ht0'.
  { eapply shaped_sameColumns; [|done]. apply sameColumns_sym, sameColumns_alter. done. }
  destruct (decide (root t = root t0)) as [Heq|Hne].
  - rewrite (shaped_unique h t0 t) by done.
    rewrite <- Heq, list_lookup_alter_eq in Hlookup.
    apply fmap_Some in Hlookup as (node & _ & ->).
    simpl in Hcell. congruence.
  - rewrite list_lookup_alter_ne in Hlookup by done. by eapply Hfresh.
Qed.

Lemma leafFresh_flatStep table h h' :
  flatStep h h' → leafFresh table h → leafFresh table h'.
Proof.
  intros [Hsame Hcells] Hfresh t node' deps result Ht Hlookup Hcell Hdeps.
  apply (list_lookup_fmap_Some_2 Node.leafColumns) in Hlookup as Hleaf.
  rewrite Hcells in Hleaf.
  apply list_lookup_fmap_Some_1 in Hleaf as (node & Hnode & Hlookup').
  eapply (Hfresh t node); [|done|by rewrite <- Hnode|done].
  by eapply shaped_sameColumns; [apply sameColumns_sym|].
Qed.

Lemma flatFresh_leafStep h h' :
  leafStep h h' → flatFresh h → flatFresh h'.
Proof.
  intros [Hsame Hcells] Hfresh t node' deps result Ht Hlookup Hcell Hdeps.
  apply (list_lookup_fmap_Some_2 Node.flatColumns) in Hlookup as Hflat.
  rewrite Hcells in Hflat.
  apply list_lookup_fmap_Some_1 in Hflat as (node & Hnode & Hlookup').
  eapply (Hfresh t node); [|done|by rewrite <- Hnode|done].
  by eapply shaped_sameColumns; [apply sameColumns_sym|].
Qed.

(** ** Calls on any store *)

Lemma flatMap_step {A B} (f : A → store → option (list B * store))
    (R : relation store) `{!Reflexive R, !Transitive R} xs :
  (∀ x h ys h', f x h = Some (ys, h') → R h h') →
  ∀ h ys h', flatMap f xs h = Some (ys, h') → R h h'.
Proof.
  intros Hf. induction xs as [|x xs IH]; intros h ys h' H; simpl in H.
  - by injection H as _ <-.
  - destruct (f x h) as [[ys1 h1]|] eqn:E1; [|done]. simpl in H.
    destruct (flatMap f xs h1) as [[ys2 h2]|] eqn:E2; [|done]. simpl in H.
    injection H as _ <-. etrans; [by eapply Hf|by eapply IH].
Qed.

(** Whatever the store, a call that returns has changed nothing but
    caches of its own kind. *)
Lemma getFlatColumns_flatStep fuel :
  ∀ column h result h',
    getFlatColumns fuel column h = Some (result, h') → flatStep h h'.
Proof.
  induction fuel as [|fuel IH]; intros column h result h' H; [done|].
  simpl in H. destruct (h !! column) as [node|] eqn:Hr; [|done]. simpl in H.
  revert H.
  case_memo h deps' result'.
  - by intros [= _ <-].
  - rewrite Hr. simpl.
    destruct (flatMap _ _ h) as [[flat h1]|] eqn:E; [|done]. simpl.
    intros [= _ <-]. etrans; [|apply flatStep_alter].
    by eapply (flatMap_step _ flatStep).
Qed.

Lemma getLeafColumns_leafStep table fuel :
  ∀ column h result h',
    getLeafColumns fuel table column h = Some (result, h') → leafStep h h'.
Proof.
  induction fuel as [|fuel IH]; intros column h result h' H; [done|].
  simpl in H. destruct (h !! column) as [node|] eqn:Hr; [|done]. simpl in H.
  revert H.
  case_memo h deps' result'.
  - by intros [= _ <-].
  - rewrite Hr. simpl.
    destruct (negb _).
    + destruct (flatMap _ _ h) as [[leafs h1]|] eqn:E; [|done]. simpl.
      intros [= _ <-]. etrans; [|apply leafStep_alter].
      by eapply (flatMap_step _ leafStep).
    + simpl. intros [= _ <-]. apply leafStep_alter.
Qed.

Lemma sameColumns_length h h' : sameColumns h h' → List.length h' = List.length h.
Proof.
  unfold sameColumns. intros H.
  by rewrite <- (length_fmap Node.column h'), H, length_fmap.
Qed.

(** After a call has returned, the node's cache holds the result. *)
Lemma getFlatColumns_cached fuel column h result h' :
  getFlatColumns fuel column h = Some (result, h') →
  ∃ node deps,
    h' !! column = Some node ∧
    Node.flatColumns node = Some (deps, result) ∧
    depsUnchanged Bool.eqb deps [true] = true.
Proof.
  intros H.
  pose proof (sameColumns_length _ _ (proj1 (getFlatColumns_flatStep _ _ _ _ _ H)))
    as Hlen.
  destruct fuel as [|fuel]; [done|].
  simpl in H. destruct (h !! column) as [node|] eqn:Hr; [|done]. simpl in H.
  revert H.
  case_memo h deps' result'.
  - intros [= <- <-]. by exists node, deps'.
  - rewrite Hr. simpl.
    destruct (flatMap _ _ h) as [[flat h1]|] eqn:E; [|done]. simpl.
    intros [= <- <-]. rewrite length_alter in Hlen.
    destruct (lookup_lt_is_Some_2 h1 column) as [node1 Hr1].
    { rewrite Hlen. by eapply lookup_lt_Some. }
    eexists _, _. rewrite list_lookup_alter_eq, Hr1. done.
Qed.

Lemma getLeafColumns_cached fuel table column h result h' :
  getLeafColumns fuel table column h = Some (result, h') →
  ∃ node deps,
    h' !! column = Some node ∧
    Node.leafColumns node = Some (deps, result) ∧
    depsUnchanged sameFn deps [Table._getOrderColumnsFn table] = true.
Proof.
  intros H.
  pose proof (sameColumns_length _ _ (proj1 (getLeafColumns_leafStep _ _ _ _ _ _ H)))
    as Hlen.
  destruct fuel as [|fuel]; [done|].
  simpl in H. destruct (h !! column) as [node|] eqn:Hr; [|done]. simpl in H.
  revert H.
  case_memo h deps' result'.
  - intros [= <- <-]. by exists node, deps'.
  - rewrite Hr. simpl. intros H.
    assert (∃ h1, h' = alter (Node.set_leafColumns
                                (Some ([Table._getOrderColumnsFn table],
                                       result))) column h1)
      as (h1 & ->).
    { destruct (negb _).
      - destruct (flatMap _ _ h) as [[leafs h1]|] eqn:E; [|done]. simpl in H.
        injection H as <- <-. by exists h1.
      - simpl in H. injection H as <- <-. by exists h. }
    rewrite length_alter in Hlen.
    destruct (lookup_lt_is_Some_2 h1 column) as [node1 Hr1].
    { rewrite Hlen. by eapply lookup_lt_Some. }
    eexists _, _. rewrite list_lookup_alter_eq, Hr1. simpl.
    split; [done|]. split; [done|].
    apply depsUnchanged_refl. intros d. apply Nat.eqb_refl.
Qed.

Lemma getFlatColumns_hit fuel column h node deps result :
  h !! column = Some node →
  Node.flatColumns node = Some (deps, result) →
  depsUnchanged Bool.eqb deps [true] = true →
  getFlatColumns (S fuel) column h = Some (result, h).
Proof.
  intros Hr Hcell Hdeps. simpl getFlatColumns. rewrite Hr. simpl.
  rewrite Hcell. by apply memo_hit.
Qed.

Lemma getLeafColumns_hit fuel table column h node deps result :
  h !! column = Some node →
  Node.leafColumns node = Some (deps, result) →
  depsUnchanged sameFn deps [Table._getOrderColumnsFn table] = true →
  getLeafColumns (S fuel) table column h = Some (result, h).
Proof.
  intros Hr Hcell Hdeps. simpl getLeafColumns. rewrite Hr. simpl.
  rewrite Hcell. by apply memo_hit.
Qed.

Lemma assignColumns_lookup column cols h node :
  h !! column = Some node →
  assignColumns column cols h !! column
  = Some (Node.set_column (Column.set_columns cols (Node.column node)) node).
Proof. intros Hr. unfold assignColumns. by rewrite list_lookup_alter_eq, Hr. Qed.

(** Every cached [getFlatColumns] result starts with its own node, in
    every store the operations can build. *)
Lemma flatHeads_empty h :
  Forall (λ node, Node.flatColumns node = None) h → flatHeads h.
Proof.
  intros Hempty column node deps result Hlookup Hcell.
  rewrite Forall_lookup in Hempty. specialize (Hempty _ _ Hlookup). congruence.
Qed.

Lemma flatHeads_alloc c h : flatHeads h → flatHeads (alloc c h).2.
Proof.
  intros Hheads column node deps result Hlookup Hcell. simpl in Hlookup.
  apply lookup_app_Some in Hlookup as [Hlookup|[_ Hlookup]].
  - by eapply Hheads.
  - apply list_lookup_singleton_Some in Hlookup as [_ <-]. done.
Qed.

Lemma flatHeads_assignColumns column cols h :
  flatHeads h → flatHeads (assignColumns column cols h).
Proof.
  intros Hheads r node deps result Hlookup Hcell. unfold assignColumns in Hlookup.
  destruct (decide (column = r)) as [->|Hne].
  - rewrite list_lookup_alter_eq in Hlookup.
    apply fmap_Some in Hlookup as (node0 & Hlookup & ->). by eapply Hheads.
  - rewrite list_lookup_alter_ne in Hlookup by done. by eapply Hheads.
Qed.

Lemma flatHeads_leafStep h h' : leafStep h h' → flatHeads h → flatHeads h'.
Proof.
  intros [_ Hcells] Hheads column node' deps result Hlookup Hcell.
  apply (list_lookup_fmap_Some_2 Node.flatColumns) in Hlookup as Hflat.
  rewrite Hcells in Hflat.
  apply list_lookup_fmap_Some_1 in Hflat as (node & Hnode & Hlookup').
  eapply (Hheads column node); [done|by rewrite <- Hnode].
Qed.

Lemma getFlatColumns_head fuel :
  ∀ column h result h',
    flatHeads h →
    getFlatColumns fuel column h = Some (result, h') →
    head result = Some column ∧ flatHeads h'.
Proof.
  induction fuel as [|fuel IH]; intros column h result h' Hheads H; [done|].
  simpl in H. destruct (h !! column) as [node|] eqn:Hr; [|done]. simpl in H.
  revert H.
  case_memo h deps' result'.
  - intros [= <- <-]. split; [by eapply Hheads|done].
  - rewrite Hr. simpl.
    destruct (flatMap _ _ h) as [[flat h1]|] eqn:E; [|done]. simpl.
    intros [= <- <-]. split; [done|].
    assert (flatHeads h1) as Hheads1.
    { revert Hheads.
      eapply (@flatMap_step _ _ (getFlatColumns fuel)
                (λ h h', flatHeads h → flatHeads h')
                (λ _ H, H) (λ _ _ _ H12 H23 H, H23 (H12 H))); [|done].
      intros x h0 ys h0' Hcall Hh0. by destruct (IH _ _ _ _ Hh0 Hcall). }
    intros r node' deps result Hlookup Hcell.
    destruct (decide (column = r)) as [->|Hne].
    + rewrite list_lookup_alter_eq in Hlookup.
      apply fmap_Some in Hlookup as (node0 & _ & ->). simpl in Hcell.
      by injection Hcell as _ <-.
    + rewrite list_lookup_alter_ne in Hlookup by done. by eapply Hheads1.
Qed.

Lemma getFlatColumns_spec t :
  ∀ fuel h,
    shaped h t → flatFresh h → (height t ≤ fuel)%nat →
    ∃ h', getFlatColumns fuel (root t) h = Some (preorder t, h') ∧
          flatStep h h' ∧ flatFresh h'.
Proof.
  induction t as [r ts IH] using tree_induction.
  intros [|fuel] h Ht Hfresh Hfuel; [simpl in Hfuel; lia|].
  destruct (shaped_lookup _ _ Ht) as (node & Hr & Hcols). simpl in Hr, Hcols.
  simpl getFlatColumns. simpl root. rewrite Hr. simpl.
  case_memo h deps' cached.
  - exists h. split; [|done].
    by rewrite (Hfresh (Tree r ts) node deps' cached).
  - rewrite Hr. simpl. rewrite Hcols.
    destruct (flatMap_trees (getFlatColumns fuel) preorder
                (λ h1, flatStep h h1 ∧ flatFresh h1) ts) with (h := h)
      as (h1 & -> & Hstep & Hfresh1); [|done|].
    { apply height_children in Hfuel.
      apply shaped_children in Ht as Hts. simpl in Hts.
      rewrite Forall_forall in *. intros t Hin h1 [Hstep1 Hfresh1].
      destruct (IH t Hin fuel h1) as (h2 & ? & ? & ?); [|done|by apply Hfuel|].
      - eapply shaped_sameColumns; [apply Hstep1|by apply Hts].
      - exists h2. split; [done|]. split; [by etrans|done]. }
    simpl. eexists. split; [done|]. split.
    + etrans; [done|]. apply flatStep_alter.
    + apply (flatFresh_alter h1 (Tree r ts)); [done|].
      eapply shaped_sameColumns; [apply Hstep|done].
Qed.

(** C6.  In a store that holds the column tree [t] with no stale
    [getFlatColumns] cache, the call on the root of [t] returns, given fuel
    for the height of [t], the root followed by the pre-order sequences of
    the children's subtrees in order, which are what [getFlatColumns]
    returns on each child; a parent with two leaf children gives
    [parent, child1, child2].  The call leaves the tree as it was and no
    cache stale.  And in every store whose cached results start with their
    own node, as in every store the operations build, whatever a call
    returns starts with the node it was called on. *)
Theorem getFlatColumns_preorder :
  (∀ h t fuel,
     shaped h t → flatFresh h → (height t ≤ fuel)%nat →
     ∃ result h',
       getFlatColumns fuel (root t) h = Some (result, h') ∧
       result = root t :: flat_map preorder (children t) ∧
       Forall (λ child, ∃ h'', getFlatColumns fuel (root child) h'
                               = Some (preorder child, h''))
         (children t) ∧
       (∀ child1 child2, children t = [Tree child1 []; Tree child2 []] →
                         result = [root t; child1; child2]) ∧
       shaped h' t ∧ flatFresh h') ∧
  (∀ fuel column h result h',
     flatHeads h →
     getFlatColumns fuel column h = Some (result, h') →
     head result = Some column ∧ flatHeads h').
Proof.
  split; [|apply getFlatColumns_head].
  intros h t fuel Ht Hfresh Hfuel.
  destruct (getFlatColumns_spec t fuel h) as (h' & Hcall & Hstep & Hfresh');
    [done..|].
  assert (shaped h' t) as Ht' by (eapply shaped_sameColumns; [apply Hstep|done]).
  exists (preorder t), h'. destruct t as [r ts]. simpl.
  split; [done|]. split; [done|]. split; [|split; [|done]].
  - destruct fuel as [|fuel]; [simpl in Hfuel; lia|].
    apply height_children in Hfuel. apply shaped_children in Ht' as Hts.
    simpl in Hts. rewrite Forall_forall in *. intros child Hin.
    destruct (getFlatColumns_spec child (S fuel) h') as (h'' & ? & _);
      [by apply Hts|done|by apply Nat.le_le_succ_r, Hfuel|].
    by exists h''.
  - by intros child1 child2 ->.
Qed.

Lemma flatFresh_empty h :
  Forall (λ node, Node.flatColumns node = None) h → flatFresh h.
Proof.
  intros Hempty t node deps result _ Hlookup Hcell _.
  rewrite Forall_lookup in Hempty. specialize (Hempty _ _ Hlookup). congruence.
Qed.

Lemma leafFresh_empty table h :
  Forall (λ node, Node.leafColumns node = None) h → leafFresh table h.
Proof.
  intros Hempty t node deps result _ Hlookup Hcell _.
  rewrite Forall_lookup in Hempty. specialize (Hempty _ _ Hlookup). congruence.
Qed.

Lemma family_shaped : shaped family familyTree.
Proof.
  eapply shaped_Tree; [reflexivity|reflexivity|].
  repeat constructor; (eapply shaped_Tree; [reflexivity|reflexivity|constructor]).
Qed.

Lemma family_flatFresh : flatFresh family.
Proof. apply flatFresh_empty. repeat constructor. Qed.

Lemma family_leafFresh table : leafFresh table family.
Proof. apply leafFresh_empty. repeat constructor. Qed.

Lemma family_flatHeads : flatHeads family.
Proof. apply flatHeads_empty. repeat constructor. Qed.

Lemma getFlatColumns_preorder_witness :
  ∃ result h',
    getFlatColumns 2 (root familyTree) family = Some (result, h') ∧
    result = [0; 1; 2] ∧
    head result = Some 0.
Proof.
  destruct getFlatColumns_preorder as [Hpreorder Hhead].
  destruct (Hpreorder family familyTree 2
              family_shaped family_flatFresh (le_n 2))
    as (result & h' & Hcall & Hresult & _).
  exists result, h'. split; [exact Hcall|]. split; [exact Hresult|].
  exact (proj1 (Hhead _ _ _ _ _ family_flatHeads Hcall)).
Defined.

Lemma getLeafColumns_spec table t :
  ∀ fuel h,
    shaped h t → leafFresh table h → (height t ≤ fuel)%nat →
    ∃ h', getLeafColumns fuel table (root t) h
          = Some (leafOrder (OrderColumnsFn.apply
                               (Table._getOrderColumnsFn table)) t,
                  h') ∧
          leafStep h h' ∧ leafFresh table h'.
Proof.
  induction t as [r ts IH] using tree_induction.
  intros [|fuel] h Ht Hfresh Hfuel; [simpl in Hfuel; lia|].
  destruct (shaped_lookup _ _ Ht) as (node & Hr & Hcols). simpl in Hr, Hcols.
  simpl getLeafColumns. simpl root. rewrite Hr. simpl.
  case_memo h deps' cached.
  - exists h. split; [|done].
    by rewrite (Hfresh (Tree r ts) node deps' cached).
  - rewrite Hr. simpl. rewrite Hcols.
    destruct ts as [|t0 ts0].
    { simpl. eexists. split; [done|]. split; [apply leafStep_alter|].
      by apply (leafFresh_alter table h (Tree r [])). }
    change (negb (List.length (root <$> t0 :: ts0) =? 0)%nat) with true.
    cbv iota.
    destruct (flatMap_trees (getLeafColumns fuel table)
                (leafOrder (OrderColumnsFn.apply
                              (Table._getOrderColumnsFn table)))
                (λ h1, leafStep h h1 ∧ leafFresh table h1) (t0 :: ts0))
      with (h := h) as (h1 & Hchildren & Hstep & Hfresh1); [|done|].
    { apply height_children in Hfuel.
      apply shaped_children in Ht as Hts. simpl in Hts.
      rewrite Forall_forall in *. intros t Hin h1 [Hstep1 Hfresh1].
      destruct (IH t Hin fuel h1) as (h2 & ? & ? & ?); [|done|by apply Hfuel|].
      - eapply shaped_sameColumns; [apply Hstep1|by apply Hts].
      - exists h2. split; [done|]. split; [by etrans|done]. }
    rewrite Hchildren. simpl.
    eexists. split; [done|]. split.
    + etrans; [done|]. apply leafStep_alter.
    + apply (leafFresh_alter table h1 (Tree r (t0 :: ts0))); [done|].
      eapply shaped_sameColumns; [apply Hstep|done].
Qed.

(** C7.  In a store that holds the column tree [t] with no stale
    [getLeafColumns] cache, the call on the root of [t] returns, given
    fuel for the height of [t]: the node alone when it has no children;
    otherwise the table's ordering function applied to the concatenation
    of the children's leaf columns, which are what [getLeafColumns]
    returns on each child.  The call leaves the tree as it was and no
    cache stale. *)
Theorem getLeafColumns_ordered table h t fuel :
  shaped h t → leafFresh table h → (height t ≤ fuel)%nat →
  ∃ result h',
    getLeafColumns fuel table (root t) h = Some (result, h') ∧
    (children t = [] → result = [root t]) ∧
    (children t ≠ [] →
     result = OrderColumnsFn.apply (Table._getOrderColumnsFn table)
                (flat_map
                   (leafOrder (OrderColumnsFn.apply
                                 (Table._getOrderColumnsFn table)))
                   (children t))) ∧
    Forall (λ child,
              ∃ h'', getLeafColumns fuel table (root child) h'
                     = Some (leafOrder (OrderColumnsFn.apply
                                          (Table._getOrderColumnsFn table))
                               child, h''))
      (children t) ∧
    shaped h' t ∧ leafFresh table h'.
Proof.
  intros Ht Hfresh Hfuel.
  destruct (getLeafColumns_spec table t fuel h) as (h' & Hcall & Hstep & Hfresh');
    [done..|].
  assert (shaped h' t) as Ht' by (eapply shaped_sameColumns; [apply Hstep|done]).
  eexists _, h'. split; [done|]. destruct t as [r ts]. simpl.
  split; [by intros ->|]. split; [by destruct ts|]. split; [|done].
  destruct fuel as [|fuel]; [simpl in Hfuel; lia|].
  apply height_children in Hfuel. apply shaped_children in Ht' as Hts.
  simpl in Hts. rewrite Forall_forall in *. intros child Hin.
  destruct (getLeafColumns_spec table child (S fuel) h') as (h'' & ? & _);
    [by apply Hts|done|by apply Nat.le_le_succ_r, Hfuel|].
  by exists h''.
Qed.

Lemma getLeafColumns_ordered_witness :
  ∃ result h',
    getLeafColumns 2 reversingTable (root familyTree) family = Some (result, h') ∧
    result = [2; 1].
Proof.
  destruct (getLeafColumns_ordered reversingTable family familyTree 2
              family_shaped (family_leafFresh reversingTable) (le_n 2))
    as (result & h' & Hcall & _ & Hresult & _).
  exists result, h'. split; [exact Hcall|].
  apply Hresult. discriminate.
Defined.

(** C8.  A memoised call whose dependencies are unchanged returns what the
    cache holds and leaves the store alone, whatever function it would
    have run: nothing is recomputed.  So once [getFlatColumns] has
    returned on a node, every later call on it returns the same result with
    the store unchanged, one unit of fuel sufficing since no child is
    visited, and this even after [columns] has been reassigned, the key
    being constant; and once [getLeafColumns] has returned, so does every
    later call made while the table's ordering function is the same
    function. *)
Theorem memoised_accessors_stable :
  (∀ (D R : Type) (same : D → D → bool) newDeps
     (fn : list D → store → option (R * store)) deps result save h,
     depsUnchanged same deps newDeps = true →
     memo same newDeps fn (Some (deps, result)) save h = Some (result, h)) ∧
  (∀ fuel column h result h',
     getFlatColumns fuel column h = Some (result, h') →
     ∀ fuel', (0 < fuel')%nat →
       getFlatColumns fuel' column h' = Some (result, h') ∧
       ∀ cols, getFlatColumns fuel' column (assignColumns column cols h')
               = Some (result, assignColumns column cols h')) ∧
  (∀ fuel table column h result h',
     getLeafColumns fuel table column h = Some (result, h') →
     ∀ table' fuel', (0 < fuel')%nat →
       OrderColumnsFn.identity (Table._getOrderColumnsFn table')
       = OrderColumnsFn.identity (Table._getOrderColumnsFn table) →
       getLeafColumns fuel' table' column h' = Some (result, h')).
Proof.
  split; [|split].
  - intros. by apply memo_hit.
  - intros fuel column h result h' H [|fuel'] Hfuel; [lia|].
    destruct (getFlatColumns_cached _ _ _ _ _ H) as (node & deps & Hr & Hcell & Hdeps).
    split.
    + by eapply getFlatColumns_hit.
    + intros cols. eapply getFlatColumns_hit;
        [by apply assignColumns_lookup|done|done].
  - intros fuel table column h result h' H table' [|fuel'] Hfuel Hsame; [lia|].
    destruct (getLeafColumns_cached _ _ _ _ _ _ H) as (node & deps & Hr & Hcell & Hdeps).
    eapply getLeafColumns_hit; [done..|].
    destruct deps as [|d [|d' deps]]; simpl in *; try done.
    + unfold sameFn in *. by rewrite Hsame.
    + by rewrite andb_false_r in Hdeps.
Qed.

Lemma memoised_accessors_stable_witness :
  ∃ result h',
    getFlatColumns 2 0 family = Some (result, h') ∧
    getFlatColumns 1 0 h' = Some (result, h') ∧
    getFlatColumns 1 0 (assignColumns 0 [] h') = Some (result, assignColumns 0 [] h').
Proof.
  destruct memoised_accessors_stable as (_ & Hflat & _).
  eexists _, _. split; [reflexivity|].
  destruct (Hflat 2 0 family _ _ eq_refl 1 (le_n 1)) as [Hagain Hassigned].
  split; [exact Hagain | exact (Hassigned [])].
Defined.

(** * Further properties of the code *)

(** ** The two accessors built from an [accessorKey] *)

Lemma walkWarnings_nil_iff accessorKey path v :
  path ≠ [] →
  walkWarnings accessorKey path v = [] ↔ walk path v ≠ Undefined.
Proof.
  revert v. induction path as [|key path IH]; intros v Hpath; [done|].
  rewrite walk_stepInto. simpl walkWarnings.
  generalize (stepInto v key). clear v. intros v.
  destruct (is_undefined v) eqn:Hv.
  - destruct v; try done. rewrite walk_Undefined. split; [discriminate|done].
  - simpl. destruct path as [|key' path]; [|by apply IH].
    simpl. split; [|done]. intros _ ->. done.
Qed.

Lemma walkWarnings_nullish accessorKey path v :
  nullish v = true →
  List.length (walkWarnings accessorKey path v) = List.length path.
Proof.
  revert v. induction path as [|key path IH]; intros v Hv; [done|].
  simpl. destruct v; try done; simpl; by rewrite (IH Undefined).
Qed.

Lemma split_nonempty sep s : JsString.split sep s ≠ [].
Proof.
  destruct s as [|a s]; simpl; [done|].
  destruct (Ascii.eqb a sep); [done|]. by destruct (JsString.split sep s).
Qed.

Lemma ownPath_nullish path v : nullish v = true → ownPath path v = true.
Proof. destruct path, v; done. Qed.

Lemma walk_nullish path v : path ≠ [] → nullish v = true → walk path v = Undefined.
Proof.
  destruct path as [|key path]; [done|]. intros _ Hv. rewrite walk_stepInto.
  destruct v; try done; apply walk_Undefined.
Qed.

(** Whatever the realm answers, the lines written fit the completion. *)
Lemma deepAccessor_warnings_run NODE_ENV k r (path : list string) :
  ∀ (acc : Js value) (started : bool),
    (∀ out, ∃ c ws, acc r out = (c, (out ++ ws)%list) ∧
                    warnedWell (not_production NODE_ENV) started c ws) →
    ∀ out, ∃ c ws,
      fold_left (deepStep NODE_ENV k) path acc r out = (c, (out ++ ws)%list) ∧
      warnedWell (not_production NODE_ENV)
        (started || match path with [] => false | _ :: _ => true end) c ws.
Proof.
  induction path as [|key path IH]; intros acc started Hacc out.
  - simpl. rewrite orb_false_r. apply Hacc.
  - cbn [fold_left].
    destruct (IH (deepStep NODE_ENV k acc key) true) with (out := out)
      as (c & ws & Hrun & Hwell).
    + clear out. intros out. destruct (Hacc out) as (c & ws & Hout & Hprod & Hdev).
      rewrite (deepStep_run _ _ _ _ _ _ _ _ Hout).
      destruct c as [v|e]; [|by exists (Throw e), ws].
      destruct (opt_index_run v key r (out ++ ws)%list)
        as (c' & -> & _ & _ & Hdefined & _).
      destruct c' as [v'|e]; simpl; [|by exists (Throw e), ws].
      eexists (Return v'), _. split; [by rewrite <- (assoc_L (++))|].
      split.
      * intros Hoff. rewrite Hoff. simpl. rewrite (Hprod Hoff). done.
      * intros Hon v0 [= <-]. rewrite Hon. simpl.
        destruct (Hdev Hon v eq_refl) as [Hclean _]. split.
        -- intros Hv'. replace (is_undefined v') with false by by destruct v'.
           rewrite (right_id_L [] (++)). apply Hclean.
           intros ->. by specialize (Hdefined v' eq_refl Hv').
        -- intros _ Hnil ->. simpl in Hnil. by destruct ws.
    + exists c, ws. split; [done|]. by rewrite orb_true_r in *.
Qed.

Lemma createColumn_deepAccessor NODE_ENV table columnDef depth parent k column :
  get (ColumnDef.accessorFn (resolvedColumnDef table columnDef)) = None →
  get (ColumnDef.accessorKey (resolvedColumnDef table columnDef)) = Some k →
  JsString.includes "." k = true →
  createColumn NODE_ENV table columnDef depth parent = Return column →
  ∃ base,
    column = runFeatures table base ∧
    Column.accessorFn base = Some (deepAccessor NODE_ENV k).
Proof.
  intros Hfn Hkey Hdot Hret. apply createColumn_inv in Hret as [_ ->].
  eexists. split; [done|]. simpl. unfold resolveAccessorFn.
  by rewrite Hfn, Hkey, Hdot, (truthy_includes _ _ Hdot).
Qed.

(** X1.  The accessor of a dotted key writes to the console in step with
    what it reads, on every row and in every realm.  In production it
    writes nothing.  Otherwise, when it returns, it has written a warning
    exactly when the value returned is [undefined]; on a row that is
    [null] or [undefined] it returns [undefined] after one warning per
    segment; and where every segment names an own property of the object
    reached, the warnings are one for each segment that reads as
    [undefined]. *)
Theorem deep_accessor_warns_iff_undefined NODE_ENV table columnDef depth parent k column :
  get (ColumnDef.accessorFn (resolvedColumnDef table columnDef)) = None →
  get (ColumnDef.accessorKey (resolvedColumnDef table columnDef)) = Some k →
  JsString.includes "." k = true →
  createColumn NODE_ENV table columnDef depth parent = Return column →
  ∃ base accessor,
    column = runFeatures table base ∧
    Column.accessorFn base = Some accessor ∧
    ∀ row r out, ∃ c warnings,
      accessor row r out = (c, (out ++ warnings)%list) ∧
      (NODE_ENV = Some "production" → warnings = []) ∧
      (NODE_ENV ≠ Some "production" →
       (∀ v, c = Return v → (warnings = [] ↔ v ≠ Undefined)) ∧
       (nullish row = true →
        c = Return Undefined ∧
        List.length warnings = List.length (JsString.split "." k)) ∧
       (ownPath (JsString.split "." k) row = true →
        c = Return (walk (JsString.split "." k) row) ∧
        warnings = walkWarnings k (JsString.split "." k) row)).
Proof.
  intros Hfn Hkey Hdot Hret.
  destruct (createColumn_deepAccessor _ _ _ _ _ _ _ Hfn Hkey Hdot Hret)
    as (base & -> & Hbase).
  exists base, (deepAccessor NODE_ENV k). split; [done|]. split; [done|].
  intros row r out. rewrite deepAccessor_fold.
  destruct (deepAccessor_warnings_run NODE_ENV k r (JsString.split "." k)
              (ret row) false) with (out := out) as (c & ws & Hrun & Hoff & Hon).
  { intros out'. exists (Return row), []. split; [by rewrite (right_id_L [] (++))|].
    split; [done|]. intros _ v [= <-]. by split. }
  exists c, ws. split; [done|]. split.
  - intros ->. by apply Hoff.
  - intros Hne. pose proof (not_production_true _ Hne) as Hdev.
    assert (∀ row', ownPath (JsString.split "." k) row' = true → row' = row →
              c = Return (walk (JsString.split "." k) row) ∧
              ws = walkWarnings k (JsString.split "." k) row) as Hown.
    { intros ? Hpath ->.
      rewrite (deepAccessor_own_run NODE_ENV k r _ _ row []) in Hrun;
        [|by intros out'; rewrite (right_id_L [] (++))|done].
      rewrite Hdev in Hrun. simpl in Hrun. injection Hrun as <- Heq.
      by apply app_inv_head in Heq. }
    split; [|split].
    + intros v ->. destruct (Hon Hdev v eq_refl) as [Hclean Hsome].
      split; [|done]. apply Hsome.
      pose proof (split_nonempty "." k). by destruct (JsString.split "." k).
    + intros Hrow.
      destruct (Hown row (ownPath_nullish _ _ Hrow) eq_refl) as [-> ->].
      split; [|by apply walkWarnings_nullish].
      f_equal. apply walk_nullish; [apply split_nonempty|done].
    + intros Hpath. by apply (Hown row).
Qed.

Lemma deep_accessor_warns_iff_undefined_witness :
  ∃ column accessor,
    createColumn None plainTable (keyed "a.b") 0 None = Return column ∧
    Column.accessorFn column = Some accessor ∧
    accessor (Object [("a", Object [("b", Number 5)])]) stringRealm []
    = (Return (Number 5), []) ∧
    (∃ line1 line2, accessor Null stringRealm [] = (Return Undefined, [line1; line2])).
Proof.
  destruct (deep_accessor_warns_iff_undefined None plainTable (keyed "a.b") 0 None
              "a.b" _ eq_refl eq_refl eq_refl eq_refl)
    as (base & accessor & Hcolumn & Hbase & Hrows).
  exists (runFeatures plainTable base), accessor.
  split; [by rewrite <- Hcolumn|]. split; [exact Hbase|].
  split.
  - destruct (Hrows (Object [("a", Object [("b", Number 5)])]) stringRealm [])
      as (c & warnings & Hrun & _ & Hdev).
    destruct (Hdev ltac:(discriminate)) as (_ & _ & Hown).
    destruct (Hown eq_refl) as [-> ->]. exact Hrun.
  - destruct (Hrows Null stringRealm []) as (c & warnings & Hrun & _ & Hdev).
    destruct (Hdev ltac:(discriminate)) as (_ & _ & Hown).
    destruct (Hown eq_refl) as [-> ->].
    exists (deepWarning "a" "a.b"), (deepWarning "b" "a.b"). exact Hrun.
Defined.

(** X2.  The accessor built for a non-empty [accessorKey] without a dot
    makes that one read of the row and never writes to the console: on an
    object that owns the property it returns its value; on a row that is
    [null] or [undefined] it throws a TypeError, where the accessor of a
    dotted key returns [undefined]; on any other row the read is answered
    by the realm (the prototype chain, the wrapper of a primitive), and
    the accessor completes as that read does. *)
Theorem shallow_accessor_reads_or_throws NODE_ENV table columnDef depth parent k column :
  get (ColumnDef.accessorFn (resolvedColumnDef table columnDef)) = None →
  get (ColumnDef.accessorKey (resolvedColumnDef table columnDef)) = Some k →
  k ≠ EmptyString →
  JsString.includes "." k = false →
  createColumn NODE_ENV table columnDef depth parent = Return column →
  ∃ base accessor,
    column = runFeatures table base ∧
    Column.accessorFn base = Some accessor ∧
    (∀ props r out,
       has_own props k = true →
       accessor (Object props) r out = (Return (own_property props k), out)) ∧
    (∀ row r out,
       nullish row = true →
       ∃ message, accessor row r out = (Throw (TypeError message), out)) ∧
    (∀ row r out,
       nullish row = false →
       (∀ props, row = Object props → has_own props k = false) →
       accessor row r out = (beyondOwn r row k, out)) ∧
    (∀ row r out, (accessor row r out).2 = out) ∧
    (∀ row key r out,
       nullish row = true →
       ∃ warnings, deepAccessor NODE_ENV key row r out
                   = (Return Undefined, (out ++ warnings)%list)).
Proof.
  intros Hfn Hkey Hk Hdot Hret. apply createColumn_inv in Hret as [_ ->].
  exists (newColumn NODE_ENV (resolvedColumnDef table columnDef)
            (resolveId (resolvedColumnDef table columnDef)) depth parent),
         (shallowAccessor k).
  split; [done|]. split; [|split; [|split; [|split; [|split]]]].
  - simpl. unfold resolveAccessorFn. rewrite Hfn, Hkey, Hdot.
    apply truthy_nonempty in Hk. by rewrite Hk.
  - intros props r out Hown. unfold shallowAccessor, index. by rewrite Hown.
  - intros row r out Hrow. destruct row; try done; by eexists.
  - intros row r out Hrow Hmissing. unfold shallowAccessor, index.
    destruct row as [| |b|n|s|props|handle]; try done.
    by rewrite (Hmissing props eq_refl).
  - intros row r out. unfold shallowAccessor, index.
    destruct row as [| |b|n|s|props|handle]; try done.
    by destruct (has_own props k).
  - intros row key r out Hrow. rewrite deepAccessor_fold.
    rewrite (deepAccessor_own_run NODE_ENV key r _ _ row []);
      [|by intros out'; rewrite (right_id_L [] (++))|by apply ownPath_nullish].
    eexists. f_equal. f_equal. apply walk_nullish; [apply split_nonempty|done].
Qed.

Lemma shallow_accessor_reads_or_throws_witness :
  ∃ column accessor,
    createColumn None plainTable (keyed "length") 0 None = Return column ∧
    Column.accessorFn column = Some accessor ∧
    accessor (Object [("length", Number 7)]) stringRealm [] = (Return (Number 7), []) ∧
    accessor (Str "Ada") stringRealm [] = (Return (Number 3), []) ∧
    ∃ message, accessor Null stringRealm [] = (Throw (TypeError message), []).
Proof.
  destruct (shallow_accessor_reads_or_throws None plainTable (keyed "length") 0 None
              "length" _ eq_refl eq_refl ltac:(discriminate) eq_refl eq_refl)
    as (base & accessor & Hcolumn & Hbase & Hown & Hnullish & Hbeyond & _).
  exists (runFeatures plainTable base), accessor.
  split; [by rewrite <- Hcolumn|]. split; [exact Hbase|].
  split; [exact (Hown [("length", Number 7)] stringRealm [] eq_refl)|].
  split; [exact (Hbeyond (Str "Ada") stringRealm [] eq_refl ltac:(discriminate))|].
  exact (Hnullish Null stringRealm [] eq_refl).
Defined.

(** X3.  An [accessorKey] that is the empty string counts for nothing:
    without an [accessorFn] the node gets no accessor, and the id comes from
    the explicit [id] or the string [header] as if there were no key; with
    neither, createColumn throws. *)
Theorem empty_accessorKey_is_ignored NODE_ENV table columnDef depth parent :
  get (ColumnDef.accessorKey (resolvedColumnDef table columnDef)) = Some EmptyString →
  (∀ column,
     createColumn NODE_ENV table columnDef depth parent = Return column →
     ∃ base,
       column = runFeatures table base ∧
       Column.accessorFn base
       = get (ColumnDef.accessorFn (resolvedColumnDef table columnDef)) ∧
       (get (ColumnDef.id (resolvedColumnDef table columnDef))
        = Some (Column.id base) ∨
        get (ColumnDef.id (resolvedColumnDef table columnDef)) = None ∧
        get (ColumnDef.header (resolvedColumnDef table columnDef))
        = Some (TemplateString (Column.id base)))) ∧
  (get (ColumnDef.id (resolvedColumnDef table columnDef)) = None →
   (∀ s, get (ColumnDef.header (resolvedColumnDef table columnDef))
         ≠ Some (TemplateString s)) →
   ∃ message,
     createColumn NODE_ENV table columnDef depth parent = Throw (Error message)).
Proof.
  intros Hkey. split.
  - intros column Hret. apply createColumn_inv in Hret as [Htruthy ->].
    eexists. split; [done|]. split.
    + simpl. unfold resolveAccessorFn. rewrite Hkey. simpl.
      case_match; congruence.
    + destruct (String_truthy _ Htruthy) as (s & Hid & HString & _).
      cbn [Column.id newColumn]. rewrite HString.
      destruct (get (ColumnDef.id (resolvedColumnDef table columnDef)))
        as [s'|] eqn:Hexplicit.
      * left. rewrite (resolveId_explicit _ _ Hexplicit) in Hid. congruence.
      * right. split; [done|].
        rewrite resolveId_header in Hid; [|done|intros k; rewrite Hkey; congruence].
        destruct (get (ColumnDef.header _)) as [[s'|r]|]; congruence.
  - intros Hid Hheader. eexists. apply createColumn_throws.
    rewrite resolveId_header; [|done|intros k; rewrite Hkey; congruence].
    destruct (get (ColumnDef.header _)) as [[s|r]|] eqn:E; [|done|done].
    by destruct (Hheader s).
Qed.

Lemma empty_accessorKey_is_ignored_witness :
  ∃ column,
    createColumn None plainTable emptyKey 0 None = Return column ∧
    Column.accessorFn column = None ∧
    Column.id column = "Name".
Proof.
  destruct (empty_accessorKey_is_ignored None plainTable emptyKey 0 None eq_refl)
    as [Hret _].
  destruct (Hret _ eq_refl) as (base & Hcolumn & Hfn & Hid).
  exists (runFeatures plainTable base). split; [by rewrite <- Hcolumn|].
  split; [exact Hfn|].
  destruct Hid as [Hid|[_ Hid]]; [discriminate|]. by injection Hid.
Defined.

Lemma replace_without (pat rep : ascii) (s : string) :
  JsString.includes pat s = false → JsString.replace pat rep s = s.
Proof.
  induction s as [|a s IH]; simpl; [done|].
  destruct (Ascii.eqb a pat); [done|]. intros H. by rewrite IH.
Qed.

(** X4.  createColumn looks at one definition only and never at the ids
    already given: a nested key with a single dot and the flat key spelt
    with an underscore in its place resolve to the same id. *)
Theorem nested_and_flat_key_share_id NODE_ENV table def1 def2
    depth1 parent1 depth2 parent2 k :
  get (ColumnDef.id (resolvedColumnDef table def1)) = None →
  get (ColumnDef.accessorKey (resolvedColumnDef table def1)) = Some k →
  JsString.includes "." k = true →
  JsString.includes "." (JsString.replace "." "_" k) = false →
  get (ColumnDef.id (resolvedColumnDef table def2)) = None →
  get (ColumnDef.accessorKey (resolvedColumnDef table def2))
  = Some (JsString.replace "." "_" k) →
  ∃ base1 base2,
    createColumn NODE_ENV table def1 depth1 parent1
    = Return (runFeatures table base1) ∧
    createColumn NODE_ENV table def2 depth2 parent2
    = Return (runFeatures table base2) ∧
    Column.id base1 = JsString.replace "." "_" k ∧
    Column.id base2 = JsString.replace "." "_" k ∧
    (hooksKeep Column.id (Table._features table) →
     Column.id (runFeatures table base1) = Column.id (runFeatures table base2)).
Proof.
  intros Hid1 Hkey1 Hdot Hflat Hid2 Hkey2.
  assert (JsString.replace "." "_" k ≠ EmptyString) as Hne.
  { apply truthy_nonempty. rewrite truthy_replace. by eapply truthy_includes. }
  destruct (createColumn_with_id NODE_ENV table def1 depth1 parent1
              (JsString.replace "." "_" k))
    as (base1 & Hret1 & Hbase1 & _ & _ & _ & Hkeep1); [|done|].
  { apply resolveId_accessorKey; [done|done|by eapply truthy_includes]. }
  destruct (createColumn_with_id NODE_ENV table def2 depth2 parent2
              (JsString.replace "." "_" k))
    as (base2 & Hret2 & Hbase2 & _ & _ & _ & Hkeep2); [|done|].
  { rewrite (resolveId_accessorKey _ _ Hid2 Hkey2) by by apply truthy_nonempty.
    by rewrite replace_without. }
  exists base1, base2. split; [done|]. split; [done|]. split; [done|].
  split; [done|]. intros Hkeep. by rewrite Hkeep1, Hkeep2.
Qed.

Lemma nested_and_flat_key_share_id_witness :
  ∃ base1 base2,
    createColumn None plainTable (keyed "a.b") 0 None
    = Return (runFeatures plainTable base1) ∧
    createColumn None plainTable (keyed "a_b") 0 None
    = Return (runFeatures plainTable base2) ∧
    Column.id base1 = "a_b" ∧
    Column.id base2 = "a_b".
Proof.
  destruct (nested_and_flat_key_share_id None plainTable (keyed "a.b") (keyed "a_b")
              0 None 0 None "a.b" eq_refl eq_refl eq_refl eq_refl eq_refl eq_refl)
    as (base1 & base2 & H1 & H2 & Hid1 & Hid2 & _).
  exists base1, base2. split; [exact H1|]. split; [exact H2|].
  split; [exact Hid1 | exact Hid2].
Defined.

(** ** The feature registry *)

Lemma createColumn_withFeatures NODE_ENV table features columnDef depth parent :
  createColumn NODE_ENV (withFeatures table features) columnDef depth parent
  = if negb (truthy (resolveId (resolvedColumnDef table columnDef))) then
      Throw (Error
               (if not_production NODE_ENV then
                  match get (ColumnDef.accessorFn (resolvedColumnDef table columnDef)) with
                  | Some _ => "Columns require an id when using an accessorFn"
                  | None => "Columns require an id when using a non-string header"
                  end
                else EmptyString))
    else
      Return (fold_left (applyFeature (Table.core table)) (Object_values features)
                (newColumn NODE_ENV (resolvedColumnDef table columnDef)
                   (resolveId (resolvedColumnDef table columnDef)) depth parent)).
Proof.
  unfold createColumn.
  change (resolvedColumnDef (withFeatures table features) columnDef)
    with (resolvedColumnDef table columnDef).
  destruct (negb _); [by destruct (not_production NODE_ENV)|done].
Qed.

(** X5.  A feature without a [createColumn] hook takes no part in the
    construction: createColumn gives the same completion with such
    entries struck from the registry. *)
Theorem hookless_features_are_skipped NODE_ENV table columnDef depth parent :
  createColumn NODE_ENV
    (withFeatures table (List.filter hasHook (Table._features table)))
    columnDef depth parent
  = createColumn NODE_ENV table columnDef depth parent.
Proof.
  replace table with (withFeatures table (Table._features table)) at 3
    by by destruct table.
  rewrite !createColumn_withFeatures. destruct (negb _); [done|]. f_equal.
  generalize (newColumn NODE_ENV (resolvedColumnDef table columnDef)
                (resolveId (resolvedColumnDef table columnDef)) depth parent).
  induction (Table._features table) as [|[name feature] features IH];
    intros column; [done|].
  cbn [List.filter]. unfold hasHook at 1. cbn [snd].
  unfold Object_values in *. rewrite (fmap_cons snd). cbn [fold_left snd].
  destruct (TableFeature.createColumn feature) as [hook|] eqn:Hhook.
  - rewrite (fmap_cons snd). cbn [fold_left snd]. apply IH.
  - replace (applyFeature (Table.core table) column feature) with column
      by (unfold applyFeature; by rewrite Hhook).
    apply IH.
Qed.

(** X6.  The hooks of a registry run on the node the earlier entries
    left: createColumn over a registry [first ++ later] returns what the
    hooks of [later], applied in order, make of the node createColumn
    returns over [first]; and it throws exactly when createColumn over
    [first] throws, with the same error. *)
Theorem later_features_extend_earlier NODE_ENV table first later columnDef depth parent :
  createColumn NODE_ENV (withFeatures table (first ++ later)%list)
    columnDef depth parent
  = match createColumn NODE_ENV (withFeatures table first) columnDef depth parent with
    | Return column =>
        Return (fold_left (applyFeature (Table.core table)) (Object_values later) column)
    | Throw e => Throw e
    end.
Proof.
  rewrite !createColumn_withFeatures. destruct (negb _); [done|].
  unfold Object_values. by rewrite fmap_app, fold_left_app.
Qed.

(** ** The memoised accessors on any store *)

(** X7.  Whatever the store, a call of [getFlatColumns] that returns has
    changed no column's data properties and no [getLeafColumns] cache,
    and a call of [getLeafColumns] that returns has changed no column's
    data properties and no [getFlatColumns] cache; neither adds nor
    removes a column. *)
Theorem accessors_touch_only_their_own_caches :
  (∀ fuel column h result h',
     getFlatColumns fuel column h = Some (result, h') →
     Node.column <$> h' = Node.column <$> h ∧
     Node.leafColumns <$> h' = Node.leafColumns <$> h ∧
     List.length h' = List.length h) ∧
  (∀ fuel table column h result h',
     getLeafColumns fuel table column h = Some (result, h') →
     Node.column <$> h' = Node.column <$> h ∧
     Node.flatColumns <$> h' = Node.flatColumns <$> h ∧
     List.length h' = List.length h).
Proof.
  split.
  - intros fuel column h result h' H.
    destruct (getFlatColumns_flatStep _ _ _ _ _ H) as [Hsame Hcells].
    split; [done|]. split; [done|]. by apply sameColumns_length.
  - intros fuel table column h result h' H.
    destruct (getLeafColumns_leafStep _ _ _ _ _ _ H) as [Hsame Hcells].
    split; [done|]. split; [done|]. by apply sameColumns_length.
Qed.

Lemma accessors_touch_only_their_own_caches_witness :
  ∃ result h',
    getFlatColumns 2 0 family = Some (result, h') ∧
    Node.column <$> h' = Node.column <$> family ∧
    Node.leafColumns <$> h' = Node.leafColumns <$> family ∧
    List.length h' = 3.
Proof.
  destruct accessors_touch_only_their_own_caches as [Hflat _].
  eexists _, _. split; [reflexivity|].
  exact (Hflat 2 0 family _ _ eq_refl).
Defined.

(** ** Leaf columns and flat columns *)

Lemma flat_map_Permutation {A B} (f g : A → list B) (xs : list A) :
  Forall (λ x, f x ≡ₚ g x) xs → flat_map f xs ≡ₚ flat_map g xs.
Proof.
  induction 1 as [|x xs Hx _ IH]; simpl; [done|]. by rewrite Hx, IH.
Qed.

Lemma flat_map_ext_Forall {A B} (f g : A → list B) (xs : list A) :
  Forall (λ x, f x = g x) xs → flat_map f xs = flat_map g xs.
Proof.
  induction 1 as [|x xs Hx _ IH]; simpl; [done|]. by rewrite Hx, IH.
Qed.

Lemma filter_flat_map {A B} (p : B → bool) (f : A → list B) (xs : list A) :
  List.filter p (flat_map f xs) = flat_map (λ x, List.filter p (f x)) xs.
Proof.
  induction xs as [|x xs IH]; simpl; [done|]. by rewrite List.filter_app, IH.
Qed.

Lemma childless_root h t : shaped h t → childless h (root t) = match children t with [] => true | _ => false end.
Proof.
  intros Ht. destruct (shaped_lookup _ _ Ht) as (node & Hr & Hcols).
  unfold childless. rewrite Hr, Hcols. by destruct (children t).
Qed.

Lemma leafOrder_childless (order : list ref → list ref) h t :
  shaped h t →
  ((∀ columns, order columns ≡ₚ columns) →
   leafOrder order t ≡ₚ List.filter (childless h) (preorder t)) ∧
  ((∀ columns, order columns = columns) →
   leafOrder order t = List.filter (childless h) (preorder t)).
Proof.
  induction t as [r ts IH] using tree_induction. intros Ht.
  pose proof (childless_root _ _ Ht) as Hchildless. simpl in Hchildless.
  apply shaped_children in Ht as Hts. simpl in Hts.
  destruct ts as [|t0 ts0].
  { simpl. rewrite Hchildless. by split. }
  cbn [preorder List.filter]. rewrite Hchildless, filter_flat_map.
  change (leafOrder order (Tree r (t0 :: ts0)))
    with (order (flat_map (leafOrder order) (t0 :: ts0))).
  split; intros Horder; rewrite Horder.
  - apply flat_map_Permutation. rewrite Forall_forall in *.
    intros t Hin. by apply (IH t Hin); [apply Hts|].
  - apply flat_map_ext_Forall. rewrite Forall_forall in *.
    intros t Hin. by apply (IH t Hin); [apply Hts|].
Qed.

(** X8.  When the table's ordering function only rearranges the columns it
    is given, the leaf columns of a node are a rearrangement of those of
    its flat columns that have no children; when it returns them as they
    come, the leaf columns are exactly the childless flat columns, in the
    order of the flat columns. *)
Theorem leaf_columns_are_the_childless_flat_columns table h t fuel :
  shaped h t → flatFresh h → leafFresh table h → (height t ≤ fuel)%nat →
  ∃ flat h1 leaf h2,
    getFlatColumns fuel (root t) h = Some (flat, h1) ∧
    getLeafColumns fuel table (root t) h1 = Some (leaf, h2) ∧
    ((∀ columns, OrderColumnsFn.apply (Table._getOrderColumnsFn table) columns
                 ≡ₚ columns) →
     leaf ≡ₚ List.filter (childless h) flat) ∧
    ((∀ columns, OrderColumnsFn.apply (Table._getOrderColumnsFn table) columns
                 = columns) →
     leaf = List.filter (childless h) flat).
Proof.
  intros Ht Hflat Hleaf Hfuel.
  destruct (getFlatColumns_spec t fuel h) as (h1 & Hcall1 & Hstep1 & _); [done..|].
  destruct (getLeafColumns_spec table t fuel h1) as (h2 & Hcall2 & _);
    [by eapply shaped_sameColumns; [apply Hstep1|]
    |by eapply leafFresh_flatStep|done|].
  eexists _, h1, _, h2. split; [done|]. split; [done|].
  by apply leafOrder_childless.
Qed.

Lemma leaf_columns_are_the_childless_flat_columns_witness :
  ∃ flat h1 leaf h2,
    getFlatColumns 2 0 family = Some (flat, h1) ∧
    getLeafColumns 2 reversingTable 0 h1 = Some (leaf, h2) ∧
    leaf ≡ₚ List.filter (childless family) flat.
Proof.
  destruct (leaf_columns_are_the_childless_flat_columns reversingTable family
              familyTree 2 family_shaped family_flatFresh
              (family_leafFresh reversingTable) (le_n 2))
    as (flat & h1 & leaf & h2 & Hflat & Hleaf & Hperm & _).
  exists flat, h1, leaf, h2. split; [exact Hflat|]. split; [exact Hleaf|].
  apply Hperm. intros columns. simpl. symmetry. apply Permutation_rev.
Defined.

(** ** A change of ordering function *)

Global Instance leafStepFor_refl table : Reflexive (leafStepFor table).
Proof. intros h. split; [done|]. intros column node Hr. exists node. auto. Qed.

Global Instance leafStepFor_trans table : Transitive (leafStepFor table).
Proof.
  intros h1 h2 h3 [Hstep12 H12] [Hstep23 H23]. split; [by etrans|].
  intros column node3 Hr3.
  destruct (H23 _ _ Hr3) as (node2 & Hr2 & Hcell23).
  destruct (H12 _ _ Hr2) as (node1 & Hr1 & Hcell12).
  exists node1. split; [done|].
  destruct Hcell23 as [->|?]; [done|by right].
Qed.

Lemma leafStepFor_alter table result column h :
  leafStepFor table h
    (alter (Node.set_leafColumns
              (Some ([Table._getOrderColumnsFn table], result))) column h).
Proof.
  split; [apply leafStep_alter|]. intros r node' Hr.
  destruct (decide (column = r)) as [->|Hne].
  - rewrite list_lookup_alter_eq in Hr.
    apply fmap_Some in Hr as (node & Hnode & ->).
    exists node. split; [done|]. right. by eexists.
  - rewrite list_lookup_alter_ne in Hr by done. exists node'. auto.
Qed.

Lemma getLeafColumns_leafStepFor table fuel :
  ∀ column h result h',
    getLeafColumns fuel table column h = Some (result, h') →
    leafStepFor table h h'.
Proof.
  induction fuel as [|fuel IH]; intros column h result h' H; [done|].
  simpl in H. destruct (h !! column) as [node|] eqn:Hr; [|done]. simpl in H.
  revert H. case_memo h deps' result'.
  - by intros [= _ <-].
  - rewrite Hr. simpl.
    destruct (negb _).
    + destruct (flatMap _ _ h) as [[leafs h1]|] eqn:E; [|done]. simpl.
      intros [= _ <-]. etrans; [|apply leafStepFor_alter].
      by eapply (flatMap_step _ (leafStepFor table)).
    + simpl. intros [= _ <-]. apply leafStepFor_alter.
Qed.

(** Calls made for one ordering function leave no cache stale for
    another. *)
Lemma leafFresh_leafStepFor table table' h h' :
  OrderColumnsFn.identity (Table._getOrderColumnsFn table)
  ≠ OrderColumnsFn.identity (Table._getOrderColumnsFn table') →
  leafStepFor table h h' → leafFresh table' h → leafFresh table' h'.
Proof.
  intros Hne [[Hsame _] Hcells] Hfresh t node' deps result Ht Hlookup Hcell Hdeps.
  destruct (Hcells _ _ Hlookup) as (node & Hr & [Hold|[result' Hnew]]).
  - eapply (Hfresh t node); [|done|by rewrite <- Hold|done].
    by eapply shaped_sameColumns; [apply sameColumns_sym|].
  - rewrite Hnew in Hcell. injection Hcell as <- <-.
    simpl in Hdeps. unfold sameFn in Hdeps.
    apply andb_prop in Hdeps as [Hid _]. by apply Nat.eqb_eq in Hid.
Qed.

(** X9.  A change of the table's ordering function invalidates the cached
    leaf columns: after [getLeafColumns] has answered for one function, a
    call made when the table holds another function object answers with
    the leaf columns put in order by that other function. *)
Theorem new_ordering_function_recomputes table table' h t fuel :
  shaped h t → leafFresh table h → leafFresh table' h →
  OrderColumnsFn.identity (Table._getOrderColumnsFn table)
  ≠ OrderColumnsFn.identity (Table._getOrderColumnsFn table') →
  (height t ≤ fuel)%nat →
  ∃ h1 h2,
    getLeafColumns fuel table (root t) h
    = Some (leafOrder (OrderColumnsFn.apply (Table._getOrderColumnsFn table)) t, h1) ∧
    getLeafColumns fuel table' (root t) h1
    = Some (leafOrder (OrderColumnsFn.apply (Table._getOrderColumnsFn table')) t, h2).
Proof.
  intros Ht Hfresh Hfresh' Hne Hfuel.
  destruct (getLeafColumns_spec table t fuel h) as (h1 & Hcall1 & Hstep1 & _);
    [done..|].
  pose proof (getLeafColumns_leafStepFor _ _ _ _ _ _ Hcall1) as Hfor.
  destruct (getLeafColumns_spec table' t fuel h1) as (h2 & Hcall2 & _);
    [by eapply shaped_sameColumns; [apply Hstep1|]
    |by eapply leafFresh_leafStepFor|done|].
  by exists h1, h2.
Qed.

Lemma new_ordering_function_recomputes_witness :
  ∃ h1 h2,
    getLeafColumns 2 reversingTable 0 family = Some ([2; 1], h1) ∧
    getLeafColumns 2 identityTable 0 h1 = Some ([1; 2], h2).
Proof.
  exact (new_ordering_function_recomputes reversingTable identityTable family
           familyTree 2 family_shaped (family_leafFresh reversingTable)
           (family_leafFresh identityTable) ltac:(discriminate) (le_n 2)).
Defined.

(** ** Assembling a tree, and asking too early *)

Lemma uncached_flatFresh h : uncached h → flatFresh h.
Proof. intros H. apply flatFresh_empty. eapply Forall_impl; [done|]. by intros ? []. Qed.

Lemma uncached_leafFresh table h : uncached h → leafFresh table h.
Proof. intros H. apply leafFresh_empty. eapply Forall_impl; [done|]. by intros ? []. Qed.

Lemma uncached_assignColumns column cols h :
  uncached h → uncached (assignColumns column cols h).
Proof.
  unfold uncached, assignColumns. rewrite !Forall_lookup. intros H r node Hr.
  destruct (decide (column = r)) as [->|Hne].
  - rewrite list_lookup_alter_eq in Hr.
    apply fmap_Some in Hr as (node0 & Hr & ->). exact (H r node0 Hr).
  - rewrite list_lookup_alter_ne in Hr by done. exact (H r node Hr).
Qed.

Lemma shaped_assignColumns_elsewhere h t column cols :
  shaped h t → column ∉ preorder t → shaped (assignColumns column cols h) t.
Proof.
  induction t as [r ts IH] using tree_induction. intros Ht Hnotin.
  inversion Ht as [? node ? Hr Hcols Hts]; subst.
  simpl in Hnotin. apply not_elem_of_cons in Hnotin as [Hne Hnotin].
  apply shaped_Tree with node; [|done|].
  - unfold assignColumns. by rewrite list_lookup_alter_ne.
  - rewrite Forall_forall in *. intros t Hin. apply IH; [done|by apply Hts|].
    intros Hc. apply Hnotin. apply list_elem_of_In, in_flat_map.
    exists t. split; [by apply list_elem_of_In|by apply list_elem_of_In].
Qed.

(** X10.  Assembling a tree: in a store where no accessor has been called
    yet, assigning to a column the roots of trees the store holds, none of
    which contains that column, makes the store hold the tree of that
    column over them; [getFlatColumns] then returns the column followed by
    the pre-order of each subtree, and [getLeafColumns] the leaves of the
    tree in the order the table's function gives. *)
Theorem assembled_tree_is_traversed table h column node ts fuel :
  uncached h →
  h !! column = Some node →
  Forall (shaped h) ts →
  column ∉ flat_map preorder ts →
  (height (Tree column ts) ≤ fuel)%nat →
  shaped (assignColumns column (root <$> ts) h) (Tree column ts) ∧
  ∃ h1 h2,
    getFlatColumns fuel column (assignColumns column (root <$> ts) h)
    = Some (column :: flat_map preorder ts, h1) ∧
    getLeafColumns fuel table column (assignColumns column (root <$> ts) h)
    = Some (leafOrder (OrderColumnsFn.apply (Table._getOrderColumnsFn table))
              (Tree column ts), h2).
Proof.
  intros Huncached Hr Hts Hnotin Hfuel.
  assert (shaped (assignColumns column (root <$> ts) h) (Tree column ts)) as Ht.
  { eapply shaped_Tree; [by apply assignColumns_lookup|done|].
    rewrite Forall_forall in *. intros t Hin.
    apply shaped_assignColumns_elsewhere; [by apply Hts|].
    intros Hc. apply Hnotin. apply list_elem_of_In, in_flat_map.
    exists t. split; [by apply list_elem_of_In|by apply list_elem_of_In]. }
  split; [done|].
  pose proof (uncached_assignColumns column (root <$> ts) h Huncached) as Hun.
  destruct (getFlatColumns_spec (Tree column ts) fuel _ Ht
              (uncached_flatFresh _ Hun) Hfuel) as (h1 & Hflat & _).
  destruct (getLeafColumns_spec table (Tree column ts) fuel _ Ht
              (uncached_leafFresh table _ Hun) Hfuel) as (h2 & Hleaf & _).
  by exists h1, h2.
Qed.

Lemma nursery_uncached : uncached nursery.
Proof. repeat constructor. Qed.

Lemma nursery_leaves : Forall (shaped nursery) [Tree 1 []; Tree 2 []].
Proof. repeat constructor; (eapply shaped_Tree; [reflexivity|reflexivity|constructor]). Qed.

Lemma nursery_parent_apart : 0 ∉ flat_map preorder [Tree 1 []; Tree 2 []].
Proof.
  simpl. intros H.
  repeat (apply elem_of_cons in H as [H|H]; [discriminate|]).
  by apply elem_of_nil in H.
Qed.

Lemma assembled_tree_is_traversed_witness :
  shaped (assignColumns 0 [1; 2] nursery) familyTree ∧
  ∃ h1 h2,
    getFlatColumns 2 0 (assignColumns 0 [1; 2] nursery) = Some ([0; 1; 2], h1) ∧
    getLeafColumns 2 reversingTable 0 (assignColumns 0 [1; 2] nursery)
    = Some ([2; 1], h2).
Proof.
  exact (assembled_tree_is_traversed reversingTable nursery 0 _
           [Tree 1 []; Tree 2 []] 2
           nursery_uncached eq_refl nursery_leaves nursery_parent_apart (le_n 2)).
Defined.

Lemma createColumnIn_inv NODE_ENV table columnDef depth parent h column h1 :
  createColumnIn NODE_ENV table columnDef depth parent h = Return (column, h1) →
  ∃ fields,
    createColumn NODE_ENV table columnDef depth parent = Return fields ∧
    column = List.length h ∧
    h1 = (h ++ [Node.mk fields None None])%list.
Proof.
  unfold createColumnIn, alloc.
  destruct (createColumn _ _ _ _ _) as [fields|e]; [|done].
  intros [= <- <-]. by exists fields.
Qed.

(** X11.  Asking too early: on a column that createColumn has just
    returned (its feature hooks leaving [columns] alone), both accessors
    answer with the column alone, the ordering function not being
    applied; and once [getFlatColumns] has so answered, it keeps answering
    with the column alone whatever children are assigned to the column
    afterwards. *)
Theorem early_call_hides_later_children NODE_ENV table columnDef depth parent
    h column h1 :
  hooksKeep Column.columns (Table._features table) →
  createColumnIn NODE_ENV table columnDef depth parent h = Return (column, h1) →
  (∀ table', ∃ h3, getLeafColumns 1 table' column h1 = Some ([column], h3)) ∧
  ∃ h2,
    getFlatColumns 1 column h1 = Some ([column], h2) ∧
    ∀ cols fuel, (0 < fuel)%nat →
      getFlatColumns fuel column (assignColumns column cols h2)
      = Some ([column], assignColumns column cols h2).
Proof.
  intros Hkeep Hcreate.
  destruct (createColumnIn_inv _ _ _ _ _ _ _ _ Hcreate) as (fields & Hret & -> & ->).
  assert (Column.columns fields = []) as Hcols.
  { apply createColumn_inv in Hret as [_ ->]. by rewrite runFeatures_keep. }
  assert ((h ++ [Node.mk fields None None])%list !! List.length h
          = Some (Node.mk fields None None)) as Hr.
  { rewrite lookup_app_r by done. by rewrite Nat.sub_diag. }
  split.
  - intros table'. simpl getLeafColumns. rewrite Hr. simpl. rewrite Hr. simpl.
    rewrite Hcols. simpl. by eexists.
  - assert (∃ h2, getFlatColumns 1 (List.length h)
                    (h ++ [Node.mk fields None None])%list
                  = Some ([List.length h], h2)) as [h2 Hcall].
    { simpl getFlatColumns. rewrite Hr. simpl. rewrite Hr. simpl.
      rewrite Hcols. simpl. by eexists. }
    exists h2. split; [done|]. intros cols [|fuel] Hfuel; [lia|].
    destruct (getFlatColumns_cached _ _ _ _ _ Hcall)
      as (node & deps & Hr2 & Hcell & Hdeps).
    eapply getFlatColumns_hit; [by apply assignColumns_lookup|done|done].
Qed.

Lemma early_call_hides_later_children_witness :
  ∃ column h1 h2,
    createColumnIn None plainTable (keyed "parent") 0 None [] = Return (column, h1) ∧
    getFlatColumns 1 column h1 = Some ([column], h2) ∧
    getFlatColumns 5 column (assignColumns column [1; 2] h2)
    = Some ([column], assignColumns column [1; 2] h2).
Proof.
  destruct (early_call_hides_later_children None plainTable (keyed "parent") 0 None
              [] _ _ ltac:(constructor) eq_refl) as [_ (h2 & Hcall & Hlater)].
  eexists _, _, h2. split; [reflexivity|]. split; [exact Hcall|].
  apply Hlater. lia.
Defined.

(** ** The Svelte adapter *)

Lemma isSvelteServerComponent_total {Props} (v : Svelte.jsv Props) :
  Svelte.nullish v = false →
  ∃ b, Svelte.isSvelteServerComponent v = Return (Svelte.JBool b).
Proof.
  intros Hv. unfold Svelte.isSvelteServerComponent.
  destruct v as [| |b|n|s|inst fields|fields call]; try done; try by eexists.
  simpl. destruct (Svelte.isFunction _); by eexists.
Qed.

Lemma isSvelteClientComponent_total {Props} (e : Svelte.env) (v : Svelte.jsv Props) :
  Svelte.svelteHMR e = false →
  Svelte.nullish v = false →
  ∃ b, Svelte.isSvelteClientComponent e v = Return (Svelte.JBool b).
Proof.
  intros Hhmr Hv. unfold Svelte.isSvelteClientComponent. rewrite Hhmr.
  destruct v as [| |b|n|s|inst fields|fields call]; try done; try by eexists.
  - simpl. destruct (Svelte.instanceOfSvelteComponent _); by eexists.
  - simpl. destruct (Svelte.instanceOfSvelteComponent _); by eexists.
Qed.

Lemma isSvelteComponent_total {Props} (e : Svelte.env) (v : Svelte.jsv Props) :
  Svelte.documentUndefined e = true ∨ Svelte.svelteHMR e = false →
  Svelte.nullish v = false →
  ∃ b, Svelte.isSvelteComponent e v = Return (Svelte.JBool b).
Proof.
  intros Henv Hv. unfold Svelte.isSvelteComponent.
  destruct (Svelte.documentUndefined e) eqn:Hdoc.
  - by apply isSvelteServerComponent_total.
  - destruct Henv as [?|Hhmr]; [done|]. by apply isSvelteClientComponent_total.
Qed.

Lemma truthy_not_nullish {Props} (v : Svelte.jsv Props) :
  Svelte.truthy v = true → Svelte.nullish v = false.
Proof. by destruct v. Qed.

(** X12.  Without hot-module reloading (on the server, or in a browser
    whose [window] has no [__SVELTE_HMR]) [flexRender] throws only what the
    function it was given throws: no property of [null] or [undefined] is
    ever read, although the server-side test by itself throws on
    [null]. *)
Theorem flexRender_throws_only_what_the_component_throws {Props}
    (e : Svelte.env) (component : Svelte.jsv Props) (props : Props) (err : exn) :
  Svelte.documentUndefined e = true ∨ Svelte.svelteHMR e = false →
  Svelte.flexRender e component props = Throw err →
  (∃ fields call,
     component = Svelte.JFunction fields call ∧
     call (Svelte.WithProps props) = Throw err) ∧
  ∃ err', Svelte.isSvelteServerComponent (@Svelte.JNull Props) = Throw err'.
Proof.
  intros Henv Hthrow. split; [|by eexists].
  unfold Svelte.flexRender in Hthrow.
  destruct (Svelte.truthy component) eqn:Htruthy; [|done]. simpl in Hthrow.
  destruct (isSvelteComponent_total e component Henv
              (truthy_not_nullish _ Htruthy)) as [b Hb].
  rewrite Hb in Hthrow. simpl in Hthrow. destruct b; [done|].
  destruct component as [| |b|n|s|inst fields|fields call]; try done.
  simpl in Hthrow. exists fields, call. split; [done|].
  destruct (call (Svelte.WithProps props)) as [result|err0]; [|simpl in Hthrow; congruence].
  simpl in Hthrow. destruct (Svelte.nullish result) eqn:Hresult; [done|].
  destruct (isSvelteComponent_total e result Henv Hresult) as [b' Hb'].
  rewrite Hb' in Hthrow. simpl in Hthrow. by destruct b'.
Qed.

Lemma flexRender_throws_only_what_the_component_throws_witness :
  ∃ fields call,
    Svelte.JFunction [] (λ _ : Svelte.arg unit, Throw (Error "boom"))
    = Svelte.JFunction fields call ∧
    call (Svelte.WithProps tt) = Throw (Error "boom").
Proof.
  exact (proj1 (flexRender_throws_only_what_the_component_throws
                  (Svelte.mkEnv true false)
                  (Svelte.JFunction [] (λ _, Throw (Error "boom"))) tt
                  (Error "boom") (or_introl eq_refl) eq_refl)).
Defined.

(** X13.  A value that is falsy but neither [null] nor [undefined]
    ([false], [0], the empty string) renders as nothing when given to
    [flexRender] itself, and inside a Placeholder when it is what a
    function given to [flexRender] returns (a function that is not taken
    for a Svelte component), in every environment. *)
Theorem flexRender_falsy_value_and_falsy_result {Props}
    (e : Svelte.env) (v : Svelte.jsv Props) (props : Props) :
  Svelte.truthy v = false →
  Svelte.flexRender e v props = Return None ∧
  (Svelte.nullish v = false →
   ∀ fields call isComponent,
     Svelte.isSvelteComponent e (Svelte.JFunction fields call) = Return isComponent →
     Svelte.truthy isComponent = false →
     call (Svelte.WithProps props) = Return v →
     Svelte.flexRender e (Svelte.JFunction fields call) props
     = Return (Some (Svelte.RenderPlaceholder v))).
Proof.
  intros Hfalsy. split.
  - unfold Svelte.flexRender. by rewrite Hfalsy.
  - intros Hv fields call isComponent His Hno Hcall.
    unfold Svelte.flexRender. simpl Svelte.truthy. simpl negb. cbv iota.
    rewrite His. simpl. rewrite Hno. simpl. rewrite Hcall. simpl. rewrite Hv.
    assert (∃ b, Svelte.isSvelteComponent e v = Return b ∧ Svelte.truthy b = false)
      as (b & -> & Hb).
    { unfold Svelte.isSvelteComponent, Svelte.isSvelteClientComponent.
      destruct v as [| |b|n|s|inst fields'|fields' call']; try done;
        destruct (Svelte.documentUndefined e), (Svelte.svelteHMR e);
        by eexists. }
    simpl. by rewrite Hb.
Qed.

Lemma flexRender_falsy_value_and_falsy_result_witness :
  Svelte.flexRender (Svelte.mkEnv false true) (Svelte.JNumber 0) tt = Return None ∧
  Svelte.flexRender (Svelte.mkEnv false true)
    (Svelte.JFunction [] (λ _, Return (Svelte.JNumber 0))) tt
  = Return (Some (Svelte.RenderPlaceholder (Svelte.JNumber 0))).
Proof.
  destruct (flexRender_falsy_value_and_falsy_result (Svelte.mkEnv false true)
              (Svelte.JNumber 0) tt eq_refl) as [Hvalue Hresult].
  split; [exact Hvalue|].
  exact (Hresult eq_refl [] (λ _, Return (Svelte.JNumber 0)) _
           eq_refl eq_refl eq_refl).
Defined.

(** X14.  In a browser a component class, a function whose [prototype] is
    an instance of [SvelteComponent], is rendered with the props and never
    called; on the server the same value is not recognised (only objects
    are) and is called as a function, so that what the call throws is
    thrown. *)
Theorem flexRender_component_class {Props}
    (e : Svelte.env) fields (call : Svelte.arg Props → completion (Svelte.jsv Props))
    (props : Props) pfields :
  Svelte.field fields "prototype" = Svelte.JObject true pfields →
  (Svelte.documentUndefined e = false →
   Svelte.flexRender e (Svelte.JFunction fields call) props
   = Return (Some (Svelte.RenderComponent (Svelte.JFunction fields call) props))) ∧
  (Svelte.documentUndefined e = true →
   ∀ err, call (Svelte.WithProps props) = Throw err →
          Svelte.flexRender e (Svelte.JFunction fields call) props = Throw err).
Proof.
  intros Hproto. split.
  - intros Hdoc. unfold Svelte.flexRender, Svelte.isSvelteComponent. rewrite Hdoc.
    unfold Svelte.isSvelteClientComponent. simpl. by rewrite Hproto.
  - intros Hdoc err Hcall. unfold Svelte.flexRender, Svelte.isSvelteComponent.
    rewrite Hdoc. simpl. by rewrite Hcall.
Qed.

Lemma flexRender_component_class_witness :
  Svelte.flexRender (Svelte.mkEnv false false)
    (Svelte.JFunction [("prototype", Svelte.JObject true [])]
       (λ _, Throw (TypeError "Class constructor cannot be invoked without new")))
    tt
  = Return (Some (Svelte.RenderComponent
                    (Svelte.JFunction [("prototype", Svelte.JObject true [])]
                       (λ _, Throw (TypeError
                                      "Class constructor cannot be invoked without new")))
                    tt)).
Proof.
  exact (proj1 (flexRender_component_class (Svelte.mkEnv false false)
                  [("prototype", Svelte.JObject true [])]
                  (λ _, Throw (TypeError
                                 "Class constructor cannot be invoked without new"))
                  tt [] eq_refl) eq_refl).
Defined.

(** X15.  With hot-module reloading in a browser, [flexRender] goes by the
    name: a function named [Proxy<...>] is rendered as a component and
    never called; and a value whose [name] is a number makes [flexRender]
    itself throw, there being no [startsWith] to call on a number. *)
Theorem flexRender_hot_reload_goes_by_name {Props} (e : Svelte.env) (props : Props) :
  Svelte.documentUndefined e = false →
  Svelte.svelteHMR e = true →
  (∀ fields call n,
     Svelte.instanceOfSvelteComponent (Svelte.field fields "prototype") = false →
     Svelte.field fields "name" = Svelte.JString n →
     String.prefix "Proxy<" n = true →
     Svelte.endsWith ">" n = true →
     Svelte.flexRender e (Svelte.JFunction fields call) props
     = Return (Some (Svelte.RenderComponent (Svelte.JFunction fields call) props))) ∧
  (∀ inst fields k,
     Svelte.instanceOfSvelteComponent (Svelte.field fields "prototype") = false →
     Svelte.field fields "name" = Svelte.JNumber k →
     ∃ err, Svelte.flexRender e (Svelte.JObject inst fields) props = Throw err).
Proof.
  intros Hdoc Hhmr. split.
  - intros fields call n Hproto Hname Hstarts Hends.
    unfold Svelte.flexRender, Svelte.isSvelteComponent. rewrite Hdoc.
    unfold Svelte.isSvelteClientComponent, Svelte.nameTest. rewrite Hhmr.
    simpl. rewrite Hproto, Hname. simpl. rewrite Hstarts. simpl.
    by rewrite Hends.
  - intros inst fields k Hproto Hname.
    unfold Svelte.flexRender, Svelte.isSvelteComponent. rewrite Hdoc.
    unfold Svelte.isSvelteClientComponent, Svelte.nameTest. rewrite Hhmr.
    simpl. rewrite Hproto, Hname. simpl. by eexists.
Qed.

Lemma flexRender_hot_reload_goes_by_name_witness :
  Svelte.flexRender (Svelte.mkEnv false true)
    (Svelte.JFunction [("name", Svelte.JString "Proxy<Cell>")]
       (λ _, Throw (Error "called")))
    tt
  = Return (Some (Svelte.RenderComponent
                    (Svelte.JFunction [("name", Svelte.JString "Proxy<Cell>")]
                       (λ _, Throw (Error "called")))
                    tt)) ∧
  ∃ err, Svelte.flexRender (Svelte.mkEnv false true)
           (Svelte.JObject false [("name", Svelte.JNumber 5)]) tt
         = Throw err.
Proof.
  destruct (flexRender_hot_reload_goes_by_name (Svelte.mkEnv false true) tt
              eq_refl eq_refl) as [Hproxy Hnumber].
  split.
  - exact (Hproxy [("name", Svelte.JString "Proxy<Cell>")]
             (λ _, Throw (Error "called")) "Proxy<Cell>"
             eq_refl eq_refl eq_refl eq_refl).
  - exact (Hnumber false [("name", Svelte.JNumber 5)] 5%Z eq_refl eq_refl).
Defined.

(** ** Failure comes before the features *)

(** X16.  Whether createColumn throws, and what, is settled before any
    feature runs and without regard to [depth] and [parent]: a definition
    that makes it throw does so with the same error under every registry,
    depth and parent. *)
Theorem createColumn_fails_before_features NODE_ENV table columnDef depth parent err :
  createColumn NODE_ENV table columnDef depth parent = Throw err →
  ∀ features depth' parent',
    createColumn NODE_ENV (withFeatures table features) columnDef depth' parent'
    = Throw err.
Proof.
  intros Hthrow features depth' parent'.
  replace table with (withFeatures table (Table._features table)) in Hthrow
    by by destruct table.
  rewrite createColumn_withFeatures in *.
  by destruct (negb _).
Qed.

Lemma createColumn_fails_before_features_witness :
  createColumn None (withFeatures plainTable (Table._features twoSetters))
    fnOnly 3 (Some 7)
  = Throw (Error "Columns require an id when using an accessorFn").
Proof.
  exact (createColumn_fails_before_features None plainTable fnOnly 0 None _
           eq_refl (Table._features twoSetters) 3%Z (Some 7)).
Defined.
